(** * Stream ingestion in modules/utils.js

    A shallow embedding of [makeChecksum], [bufferStream], [streamToDisk]
    and [makeTemporaryPath].  Each of the three operations subscribes
    handlers to an event emitter and returns the promise of a deferred
    value; the handlers are embedded as functions on an explicit state, one
    call per delivered event, and a run of the operation is the fold of its
    handler over the events in delivery order. *)

From Stdlib Require Import ZArith List String Ascii Bool Lia DecimalString.
From Stdlib Require Strings.Byte.
Import ListNotations.
Local Open Scope Z_scope.
Local Open Scope list_scope.

Set Implicit Arguments.

(** ** Values shared by the three operations *)

(** A [Buffer] is a sequence of bytes; [chunk.length] is its byte count. *)
Definition Buffer : Type := list Byte.byte.

Definition byteLength (chunk : Buffer) : Z := Z.of_nat (List.length chunk).

(** [Buffer.concat(chunks)] *)
Definition Buffer_concat (chunks : list Buffer) : Buffer := List.concat chunks.

(** Sum of [chunk.length] over a list of chunks. *)
Fixpoint totalLength (chunks : list Buffer) : Z :=
  match chunks with
  | [] => 0
  | chunk :: rest => byteLength chunk + totalLength rest
  end.

(** Error values that travel through [reject] or escape a handler. *)
Inductive JsError : Type :=
| IoError (code : string)
| HashError (message : string)
| LimitError (limit : Z).

(** Modelled from the spec: the constructor [MaxLengthExceededError] exported
    by ./errors, which is not among the sources; the condition "carries the
    configured limit". *)
Definition MaxLengthExceededError (maxLength : Z) : JsError :=
  LimitError maxLength.

(** What a readable stream emits: ['data'], ['end'], ['error']. *)
Inductive StreamEvent : Type :=
| EvData (chunk : Buffer)
| EvEnd
| EvError (error : JsError).

(** The events of a source that follows the stream protocol: zero or more
    ['data'] events followed by one terminal event. *)
Definition emits (chunks : list Buffer) (terminal : StreamEvent)
  : list StreamEvent :=
  map EvData chunks ++ [terminal].

(** The chunks carried by the ['data'] events, in order. *)
Fixpoint data_chunks (events : list StreamEvent) : list Buffer :=
  match events with
  | [] => []
  | EvData chunk :: rest => chunk :: data_chunks rest
  | _ :: rest => data_chunks rest
  end.

Definition is_terminal (ev : StreamEvent) : bool :=
  match ev with
  | EvData _ => false
  | EvEnd | EvError _ => true
  end.

(** ** when.defer()

    A deferred is settled by the first call of [resolve] or [reject]; calls
    on a settled deferred leave it as it is. *)
Inductive Deferred (V : Type) : Type :=
| Pending
| Resolved (v : V)
| Rejected (reason : JsError).

Arguments Pending {V}.
Arguments Resolved {V} v.
Arguments Rejected {V} reason.

Definition resolve {V} (v : V) (d : Deferred V) : Deferred V :=
  match d with
  | Pending => Resolved v
  | _ => d
  end.

Definition reject {V} (reason : JsError) (d : Deferred V) : Deferred V :=
  match d with
  | Pending => Rejected reason
  | _ => d
  end.

Definition settled {V} (d : Deferred V) : bool :=
  match d with
  | Pending => false
  | _ => true
  end.

(** ** Runs of an event-driven operation *)

Section Runs.
Variables (S Ev V : Type).
Variable handle : S -> Ev -> S.
Variable promise : S -> Deferred V.

(** Deliver the events in order. *)
Definition deliver (st : S) (events : list Ev) : S :=
  fold_left handle events st.

(** Number of deliveries at which the promise goes from pending to
    settled. *)
Fixpoint settlements (st : S) (events : list Ev) : nat :=
  match events with
  | [] => 0%nat
  | ev :: rest =>
      let st' := handle st ev in
      ((if negb (settled (promise st)) && settled (promise st')
        then 1 else 0) + settlements st' rest)%nat
  end.

(** The promise is settled at exactly one delivery of [events], and no
    event delivered after them changes it. *)
Definition settles_exactly_once (st : S) (events : list Ev) : Prop :=
  settlements st events = 1%nat
  /\ forall later,
      promise (deliver (deliver st events) later)
      = promise (deliver st events).
End Runs.

(** ** bufferStream (utils.js, lines 235-259) *)

Module BufferStream.

Record State : Type := mkState {
  value : Deferred Buffer;
  chunks : list Buffer;
  length : Z
}.

(** [when.defer()], [chunks = []], [length = 0] *)
Definition init : State :=
  {| value := Pending; chunks := []; length := 0 |}.

(** [maxLength && length > maxLength]: an absent or zero [maxLength] is
    falsy, so the comparison is not reached. *)
Definition exceeded (maxLength : option Z) (length : Z) : option Z :=
  match maxLength with
  | Some m => if negb (m =? 0) && (length >? m) then Some m else None
  | None => None
  end.

(** The ['data'] handler. *)
Definition on_data (maxLength : option Z) (st : State) (chunk : Buffer)
  : State :=
  let length' := length st + byteLength chunk in
  match exceeded maxLength length' with
  | Some m =>
      {| value := reject (MaxLengthExceededError m) (value st);
         chunks := chunks st;
         length := length' |}
  | None =>
      {| value := value st;
         chunks := chunks st ++ [chunk];
         length := length' |}
  end.

(** The ['end'] handler. *)
Definition on_end (st : State) : State :=
  {| value := resolve (Buffer_concat (chunks st)) (value st);
     chunks := chunks st;
     length := length st |}.

(** The ['error'] handler. *)
Definition on_error (st : State) (error : JsError) : State :=
  {| value := reject error (value st);
     chunks := chunks st;
     length := length st |}.

Definition handle (maxLength : option Z) (st : State) (ev : StreamEvent)
  : State :=
  match ev with
  | EvData chunk => on_data maxLength st chunk
  | EvEnd => on_end st
  | EvError error => on_error st error
  end.

(** State of the operation after [stream] has emitted its events. *)
Definition run (stream : list StreamEvent) (maxLength : option Z) : State :=
  deliver (handle maxLength) init stream.

(** [bufferStream(stream, maxLength)]: the state of the returned promise
    once [stream] has emitted its events. *)
Definition bufferStream (stream : list StreamEvent) (maxLength : option Z)
  : Deferred Buffer :=
  value (run stream maxLength).

(** First-event-wins, in the words of the specification: scanning the
    events in order with the running total of bytes, the outcome is that
    of the first error, limit breach or completion. *)
Fixpoint first_event_wins (maxLength : option Z) (total : Z)
  (seen : list Buffer) (events : list StreamEvent) : Deferred Buffer :=
  match events with
  | [] => Pending
  | EvError error :: _ => Rejected error
  | EvEnd :: _ => Resolved (Buffer_concat seen)
  | EvData chunk :: rest =>
      match exceeded maxLength (total + byteLength chunk) with
      | Some m => Rejected (MaxLengthExceededError m)
      | None =>
          first_event_wins maxLength (total + byteLength chunk)
            (seen ++ [chunk]) rest
      end
  end.

End BufferStream.

(** ** Synchronous set-up code

    The body of an operation that runs before any event is delivered may
    throw and may open files.  [M A] threads the log of files opened so far
    and stops at the first exception. *)

Inductive IO : Type :=
| OpenRead (file : string)
| OpenWrite (file : string).

Inductive Result (A : Type) : Type :=
| Ok (a : A)
| Threw (e : JsError).

Arguments Ok {A} a.
Arguments Threw {A} e.

Definition M (A : Type) : Type := list IO -> Result A * list IO.

Definition ret {A} (a : A) : M A := fun log => (Ok a, log).

Definition throw {A} (e : JsError) : M A := fun log => (Threw e, log).

Definition bind {A B} (m : M A) (k : A -> M B) : M B :=
  fun log =>
    match m log with
    | (Ok a, log') => k a log'
    | (Threw e, log') => (Threw e, log')
    end.

Notation "x <- m ;; k" := (bind m (fun x => k))
  (at level 61, m at next level, right associativity).

(** Record in the log that a file was opened. *)
Definition opened (io : IO) : M unit := fun log => (Ok tt, log ++ [io]).

(** Run the set-up from an empty log, then deliver [events] to the handlers
    it installed. *)
Definition listen {S Ev} (setup : M S) (handle : S -> Ev -> S)
  (events : list Ev) : Result S * list IO :=
  match setup [] with
  | (Ok st, log) => (Ok (deliver handle st events), log)
  | (Threw e, log) => (Threw e, log)
  end.

(** [x || d] on an optional string: absent and empty are falsy. *)
Definition or_default (x : option string) (d : string) : string :=
  match x with
  | Some s => if String.eqb s "" then d else s
  | None => d
  end.

(** ** makeChecksum (utils.js, lines 209-229) *)

(** The hash objects of the crypto module: [supported] tells the names
    [crypto.createHash] accepts, the rest is the running state of one hash
    object. *)
Class Crypto : Type := {
  Hash : Type;
  supported : string -> bool;
  hash_new : string -> Hash;
  hash_update : Hash -> Buffer -> Hash;
  hash_hex : Hash -> string
}.

Module Checksum.
Section WithCrypto.
Context {crypto : Crypto}.

(** [hash] is the hash object, [digested] tells that [hash.digest] was
    called on it; [uncaught] holds an exception that escaped a handler: by
    default the process stops on it, so no further handler runs. *)
Record State : Type := mkState {
  value : Deferred string;
  hash : Hash;
  digested : bool;
  uncaught : option JsError
}.

(** [crypto.createHash(algorithm)] throws on a name it does not support. *)
Definition createHash (algorithm : string) : M Hash :=
  if supported algorithm
  then ret (hash_new algorithm)
  else throw (HashError "Digest method not supported").

(** [fs.createReadStream(file)] *)
Definition createReadStream (file : string) : M unit :=
  opened (OpenRead file).

Definition makeChecksum (file : string) (algorithm : option string)
  : M State :=
  let algorithm := or_default algorithm "md5" in
  hash <- createHash algorithm ;;
  _ <- createReadStream file ;;
  ret {| value := Pending; hash := hash; digested := false;
         uncaught := None |}.

(** A hash object throws when used after [digest]. *)
Definition on_data (st : State) (chunk : Buffer) : State :=
  if digested st
  then {| value := value st; hash := hash st; digested := true;
          uncaught := Some (HashError "Not initialized") |}
  else {| value := value st; hash := hash_update (hash st) chunk;
          digested := digested st; uncaught := uncaught st |}.

Definition on_end (st : State) : State :=
  if digested st
  then {| value := value st; hash := hash st; digested := true;
          uncaught := Some (HashError "Not initialized") |}
  else {| value := resolve (hash_hex (hash st)) (value st);
          hash := hash st; digested := true; uncaught := uncaught st |}.

Definition on_error (st : State) (error : JsError) : State :=
  {| value := reject error (value st); hash := hash st;
     digested := digested st; uncaught := uncaught st |}.

Definition handle (st : State) (ev : StreamEvent) : State :=
  match uncaught st with
  | Some _ => st
  | None =>
      match ev with
      | EvData chunk => on_data st chunk
      | EvEnd => on_end st
      | EvError error => on_error st error
      end
  end.

(** [makeChecksum(file, algorithm)] with the read stream emitting
    [events]: the final state, or the exception thrown by the set-up, and
    the files opened. *)
Definition run (file : string) (algorithm : option string)
  (events : list StreamEvent) : Result State * list IO :=
  listen (makeChecksum file algorithm) handle events.

(** The hex digest of the chunks seen, under [algorithm]. *)
Definition digest_of (algorithm : string) (seen : list Buffer) : string :=
  hash_hex (fold_left hash_update seen (hash_new algorithm)).

(** First-event-wins, in the words of the specification. *)
Fixpoint first_event_wins (algorithm : string) (seen : list Buffer)
  (events : list StreamEvent) : Deferred string :=
  match events with
  | [] => Pending
  | EvError error :: _ => Rejected error
  | EvEnd :: _ => Resolved (digest_of algorithm seen)
  | EvData chunk :: rest => first_event_wins algorithm (seen ++ [chunk]) rest
  end.

End WithCrypto.
End Checksum.

(** ** makeTemporaryPath (utils.js, lines 295-304) *)

(** What the function reads from its platform: [os.tmpDir()],
    [process.pid], the fields of [new Date()] ([getYear] counts from 1900,
    [getMonth] from 0), the base-36 rendering of the random number
    [(Math.random() * 0x100000000 + 1).toString(36)], and [path.join]. *)
Class Platform : Type := {
  tmpDir : string;
  pid : nat;
  getYear : nat;
  getMonth : nat;
  getDate : nat;
  random36 : string;
  path_join : string -> string -> string
}.

(** ['' + n] for a non-negative integer. *)
Definition toDecimal (n : nat) : string :=
  NilZero.string_of_uint (Nat.to_uint n).

Section WithPlatform.
Context {platform : Platform}.

Definition makeTemporaryPath (prefix : option string) : string :=
  let prefix := or_default prefix "" in
  let random := random36 in
  let date :=
    ("" ++ toDecimal getYear ++ toDecimal getMonth ++ toDecimal getDate)%string in
  let name :=
    String.concat "" [ prefix; date; "-"; toDecimal pid; "-"; random ]%string in
  path_join tmpDir name.
End WithPlatform.

(** ** streamToDisk (utils.js, lines 261-291) *)

Module StreamToDisk.

(** The fields of a part that [streamToDisk] reads. *)
Record Part : Type := mkPart {
  filename : option string;
  part_type : option string
}.

(** The object [info]. *)
Record StoredPartInfo : Type := mkInfo {
  path : string;
  name : option string;
  type : option string;
  size : Z
}.

(** The stream returned by [fs.createWriteStream(path)]: [written] are the
    bytes the file holds, [queue] the chunks handed to [stream.write] whose
    write is not acknowledged yet, oldest first; [ending] tells that
    [stream.end] was called, [finished] that the stream has finished, with
    every queued write flushed and the stream closed to further writes. *)
Record WriteStream : Type := mkStream {
  target : string;
  written : Buffer;
  queue : list Buffer;
  ending : bool;
  finished : bool
}.

(** [resolve(info)] passes the object [info] itself, not a copy. *)
Inductive Ref : Type := InfoObject.

(** An ['error'] event emitted on a stream with no ['error'] listener is
    thrown as an exception that nothing catches; [uncaught] holds it.  By
    default the process stops on it, so no further handler runs. *)
Record State : Type := mkState {
  info : StoredPartInfo;
  stream : WriteStream;
  value : Deferred Ref;
  uncaught : option JsError
}.

(** Events delivered while the operation runs: those of the part, and
    those of the storage layer behind the write stream, which
    acknowledges or fails the oldest queued write, and reports the stream
    finished once it was ended and its queue is empty. *)
Inductive Event : Type :=
| FromPart (ev : StreamEvent)
| AckWrite
| FailWrite (error : JsError)
| Finish.

Section WithPlatform.
Context {platform : Platform}.

(** [fs.createWriteStream(path)] *)
Definition createWriteStream (path : string) : M WriteStream :=
  _ <- opened (OpenWrite path) ;;
  ret {| target := path; written := []; queue := []; ending := false;
         finished := false |}.

Definition streamToDisk (part : Part) (filePrefix : option string)
  : M State :=
  let temporaryPath := makeTemporaryPath filePrefix in
  let info := {| path := temporaryPath; name := filename part;
                 type := part_type part; size := 0 |} in
  stream <- createWriteStream (path info) ;;
  ret {| info := info; stream := stream; value := Pending;
         uncaught := None |}.

(** [stream.write(chunk, callback)]: the chunk joins the queue; a write
    after [stream.end] makes the stream emit ['error']. *)
Definition write (st : State) (chunk : Buffer) : State :=
  let s := stream st in
  if ending s
  then {| info := info st; stream := s; value := value st;
          uncaught := Some (IoError "write after end") |}
  else {| info := info st;
          stream := {| target := target s; written := written s;
                       queue := queue s ++ [chunk]; ending := ending s;
                       finished := finished s |};
          value := value st; uncaught := uncaught st |}.

(** The ['data'] handler of the part. *)
Definition on_data (st : State) (chunk : Buffer) : State :=
  let i := info st in
  let st' := {| info := {| path := path i; name := name i; type := type i;
                           size := size i + byteLength chunk |};
                stream := stream st; value := value st;
                uncaught := uncaught st |} in
  write st' chunk.

(** The ['end'] handler of the part: [stream.end(callback)]. *)
Definition on_end (st : State) : State :=
  let s := stream st in
  {| info := info st;
     stream := {| target := target s; written := written s;
                  queue := queue s; ending := true;
                  finished := finished s |};
     value := value st; uncaught := uncaught st |}.

(** The ['error'] handler of the part. *)
Definition on_error (st : State) (error : JsError) : State :=
  {| info := info st; stream := stream st;
     value := reject error (value st); uncaught := uncaught st |}.

(** The oldest queued write is acknowledged; the callback passed to
    [stream.write] has an empty body. *)
Definition on_write_done (st : State) : State :=
  let s := stream st in
  match queue s with
  | [] => st
  | chunk :: rest =>
      {| info := info st;
         stream := {| target := target s; written := written s ++ chunk;
                      queue := rest; ending := ending s;
                      finished := finished s |};
         value := value st; uncaught := uncaught st |}
  end.

(** The oldest queued write fails: the callback passed to [stream.write]
    ignores its argument, and the stream emits ['error'], for which
    [streamToDisk] attaches no listener. *)
Definition on_write_failed (st : State) (error : JsError) : State :=
  let s := stream st in
  match queue s with
  | [] => st
  | chunk :: rest =>
      {| info := info st;
         stream := {| target := target s; written := written s;
                      queue := rest; ending := ending s;
                      finished := finished s |};
         value := value st; uncaught := Some error |}
  end.

(** The stream is finished: the callback passed to [stream.end] runs. *)
Definition on_finish (st : State) : State :=
  let s := stream st in
  match ending s, queue s, finished s with
  | true, [], false =>
      {| info := info st;
         stream := {| target := target s; written := written s;
                      queue := []; ending := true; finished := true |};
         value := resolve InfoObject (value st); uncaught := uncaught st |}
  | _, _, _ => st
  end.

Definition handle (st : State) (ev : Event) : State :=
  match uncaught st with
  | Some _ => st
  | None =>
      match ev with
      | FromPart (EvData chunk) => on_data st chunk
      | FromPart EvEnd => on_end st
      | FromPart (EvError error) => on_error st error
      | AckWrite => on_write_done st
      | FailWrite error => on_write_failed st error
      | Finish => on_finish st
      end
  end.

(** What the caller of the promise observes: a resolved promise gives
    access to the object [info] as it is now. *)
Definition outcome (st : State) : Deferred StoredPartInfo :=
  match value st with
  | Pending => Pending
  | Resolved InfoObject => Resolved (info st)
  | Rejected reason => Rejected reason
  end.

(** [streamToDisk(part, filePrefix)] followed by the events of [trace]. *)
Definition run (part : Part) (filePrefix : option string)
  (trace : list Event) : Result State :=
  fst (listen (streamToDisk part filePrefix) handle trace).

(** What the storage layer still owes in [st] when it fails no write: an
    acknowledgement per queued chunk, and the end of the stream. *)
Definition storage_completes (st : State) : list Event :=
  repeat AckWrite (List.length (queue (stream st))) ++ [Finish].

End WithPlatform.

(** The events of the part within a trace. *)
Definition part_events (trace : list Event) : list StreamEvent :=
  flat_map (fun ev => match ev with FromPart e => [e] | _ => [] end) trace.

(** The part is still emitting: [seen] are its chunks so far, each either
    in the file already or queued behind it, with at most [acks] of them
    acknowledged. *)
Definition collecting (seen : list Buffer) (acks : nat) (st : State)
  : Prop :=
  uncaught st = None
  /\ ending (stream st) = false
  /\ finished (stream st) = false
  /\ value st = Pending
  /\ size (info st) = totalLength seen
  /\ exists done,
       seen = done ++ queue (stream st)
       /\ written (stream st) = Buffer_concat done
       /\ (List.length done <= acks)%nat.

(** The part has ended and the stream is flushing [content] into the
    file; the promise resolves when the stream finishes. *)
Definition draining (content : Buffer) (i : StoredPartInfo) (st : State)
  : Prop :=
  uncaught st = None
  /\ info st = i
  /\ ending (stream st) = true
  /\ written (stream st) ++ Buffer_concat (queue (stream st)) = content
  /\ ((finished (stream st) = false /\ value st = Pending)
      \/ (finished (stream st) = true /\ queue (stream st) = []
          /\ value st = Resolved InfoObject)).

(** A resolved promise means a finished stream, and a finished stream
    was ended and has an empty queue. *)
Definition closed_before_resolved (st : State) : Prop :=
  (value st = Resolved InfoObject -> finished (stream st) = true)
  /\ (finished (stream st) = true ->
      queue (stream st) = [] /\ ending (stream st) = true).

(** The trace in which the part emits [events] and the storage layer
    does nothing in between. *)
Definition part_emits (events : list StreamEvent) : list Event :=
  map FromPart events.

(** Number of acknowledgements within the trace. *)
Definition acknowledged (trace : list Event) : nat :=
  List.length
    (filter (fun ev => match ev with AckWrite => true | _ => false end)
       trace).

(** No write fails within the trace. *)
Definition storage_ok (trace : list Event) : bool :=
  forallb (fun ev => match ev with FailWrite _ => false | _ => true end)
    trace.

End StreamToDisk.

(** ** Plain objects

    An object used as a table, held as the list of its own enumerable
    properties.  [obj_get] is [object[key]] and [obj_set] the assignment
    [object[key] = v].  The place of a property in the list has no meaning:
    the order in which the properties of an object are enumerated is not
    represented, and nothing below depends on it. *)
Definition Obj (V : Type) : Type := list (string * V).

Fixpoint obj_get {V} (key : string) (object : Obj V) : option V :=
  match object with
  | [] => None
  | (k, v) :: rest => if String.eqb k key then Some v else obj_get key rest
  end.

Fixpoint obj_set {V} (key : string) (v : V) (object : Obj V) : Obj V :=
  match object with
  | [] => [(key, v)]
  | (k, w) :: rest =>
      if String.eqb k key then (k, v) :: rest
      else (k, w) :: obj_set key v rest
  end.

(** [object[key]] on a table keyed by integers. *)
Fixpoint table_get {V} (key : Z) (table : list (Z * V)) : option V :=
  match table with
  | [] => None
  | (k, v) :: rest => if k =? key then Some v else table_get key rest
  end.

(** A string is truthy when it is present and not empty. *)
Definition truthy (x : option string) : option string :=
  match x with
  | Some s => if String.eqb s "" then None else Some s
  | None => None
  end.

(** ** Status tables (utils.js, lines 12-91) *)

Definition STATUS_CODES : list (Z * string) :=
  [ (100, "Continue");
    (101, "Switching Protocols");
    (102, "Processing");
    (200, "OK");
    (201, "Created");
    (202, "Accepted");
    (203, "Non-Authoritative Information");
    (204, "No Content");
    (205, "Reset Content");
    (206, "Partial Content");
    (207, "Multi-Status");
    (300, "Multiple Choices");
    (301, "Moved Permanently");
    (302, "Moved Temporarily");
    (303, "See Other");
    (304, "Not Modified");
    (305, "Use Proxy");
    (307, "Temporary Redirect");
    (400, "Bad Request");
    (401, "Unauthorized");
    (402, "Payment Required");
    (403, "Forbidden");
    (404, "Not Found");
    (405, "Method Not Allowed");
    (406, "Not Acceptable");
    (407, "Proxy Authentication Required");
    (408, "Request Time-out");
    (409, "Conflict");
    (410, "Gone");
    (411, "Length Required");
    (412, "Precondition Failed");
    (413, "Request Entity Too Large");
    (414, "Request-URI Too Large");
    (415, "Unsupported Media Type");
    (416, "Requested Range Not Satisfiable");
    (417, "Expectation Failed");
    (418, "I'm a teapot");
    (422, "Unprocessable Entity");
    (423, "Locked");
    (424, "Failed Dependency");
    (425, "Unordered Collection");
    (426, "Upgrade Required");
    (428, "Precondition Required");
    (429, "Too Many Requests");
    (431, "Request Header Fields Too Large");
    (500, "Internal Server Error");
    (501, "Not Implemented");
    (502, "Bad Gateway");
    (503, "Service Unavailable");
    (504, "Gateway Timeout");
    (505, "HTTP Version Not Supported");
    (506, "Variant Also Negotiates");
    (507, "Insufficient Storage");
    (509, "Bandwidth Limit Exceeded");
    (510, "Not Extended");
    (511, "Network Authentication Required") ]%string.

Definition STATUS_WITHOUT_CONTENT : list (Z * bool) :=
  [ (100, true); (101, true); (204, true); (304, true) ].

(** [STATUS_WITHOUT_CONTENT[status] !== true] *)
Definition statusHasContent (status : Z) : bool :=
  match table_get status STATUS_WITHOUT_CONTENT with
  | Some true => false
  | _ => true
  end.

Definition SAFE_REQUEST_METHODS : Obj bool :=
  [ ("GET", true); ("HEAD", true); ("OPTIONS", true); ("TRACE", true) ]%string.

(** A character below 128. *)
Definition is_ascii_char (c : ascii) : bool :=
  (nat_of_ascii c <? 128)%nat.

Definition is_ascii (s : string) : bool :=
  forallb is_ascii_char (list_ascii_of_string s).

Definition upper_char (c : ascii) : ascii :=
  let n := nat_of_ascii c in
  if ((97 <=? n) && (n <=? 122))%nat then ascii_of_nat (n - 32) else c.

(** [s.toUpperCase()] on a string of characters below 128, where only the
    letters [a] to [z] change. *)
Fixpoint toUpperCase (s : string) : string :=
  match s with
  | EmptyString => EmptyString
  | String c rest => String (upper_char c) (toUpperCase rest)
  end.

(** [SAFE_REQUEST_METHODS[method.toUpperCase()] === true]; the properties
    an object inherits are functions, never [true]. *)
Definition isSafeRequestMethod (method : string) : bool :=
  match obj_get (toUpperCase method) SAFE_REQUEST_METHODS with
  | Some true => true
  | _ => false
  end.

(** ** Text responses (utils.js, lines 93-95 and 306-353) *)

Module TextResponse.

Record Headers : Type := mkHeaders {
  Content_Type : string;
  Content_Length : nat
}.

Record Response : Type := mkResponse {
  status : Z;
  headers : Headers;
  content : string
}.

Record Request : Type := mkRequest {
  method : string;
  path : string
}.

End TextResponse.

(** [Buffer.byteLength(s)], the strings being held as their UTF-8 bytes. *)
Definition Buffer_byteLength (s : string) : nat := String.length s.

(** [textResponse(status, content)].  When [content] is falsy and
    [STATUS_CODES] has no entry for [status], [Buffer.byteLength] is called
    on [undefined] and no response is built: the result is [None]. *)
Definition textResponse (status : Z) (content : option string)
  : option TextResponse.Response :=
  let content :=
    match truthy content with
    | Some c => Some c
    | None => table_get status STATUS_CODES
    end in
  match content with
  | Some c =>
      Some {| TextResponse.status := status;
              TextResponse.headers :=
                {| TextResponse.Content_Type := "text/plain";
                   TextResponse.Content_Length := Buffer_byteLength c |};
              TextResponse.content := c |}
  | None => None
  end.

Definition makeTextResponder (status : Z)
  : option string -> option TextResponse.Response :=
  fun content => textResponse status content.

Definition ok := makeTextResponder 200.
Definition badRequest := makeTextResponder 400.
Definition forbidden := makeTextResponder 403.
Definition notFound := makeTextResponder 404.
Definition requestEntityTooLarge := makeTextResponder 413.
Definition internalServerError := makeTextResponder 500.

Definition defaultApp (request : TextResponse.Request)
  : option TextResponse.Response :=
  textResponse 404
    (Some ("Not Found: " ++ TextResponse.method request ++ " "
           ++ TextResponse.path request)%string).

(** ** mergeProperties (utils.js, lines 101-109) *)

(** The loop visits the own properties of [extension] and assigns each to
    [object].  An own property named [hasOwnProperty] would be what the
    loop calls, and assigning [__proto__] sets the prototype instead of a
    property: an extension with one of these keys is outside this
    embedding, and the result is [None]. *)
Definition mergeProperties {V} (object extension : Obj V) : option (Obj V) :=
  match obj_get "hasOwnProperty" extension, obj_get "__proto__" extension with
  | None, None =>
      Some (fold_left (fun object property =>
                         obj_set (fst property) (snd property) object)
              extension object)
  | _, _ => None
  end.

(** ** escapeRegExp (utils.js, lines 115-117) *)

(** The fourteen characters of the class that [escapeRegExp] matches. *)
Definition regexp_special (c : ascii) : bool :=
  existsb (Ascii.eqb c)
    [ "."; "?"; "*"; "+"; "^"; "$"; "["; "]"; "\"; "("; ")"; "{"; "}"; "-" ]%char.

(** Every character of the class is replaced by a backslash and itself. *)
Fixpoint escapeRegExp (s : string) : string :=
  match s with
  | EmptyString => EmptyString
  | String c rest =>
      if regexp_special c
      then String "\" (String c (escapeRegExp rest))
      else String c (escapeRegExp rest)
  end.

(** ** compileRoute (utils.js, lines 187-203) *)

Definition is_letter (c : ascii) : bool :=
  let n := nat_of_ascii c in
  (((97 <=? n) && (n <=? 122)) || ((65 <=? n) && (n <=? 90)))%nat.

Definition is_digit (c : ascii) : bool :=
  let n := nat_of_ascii c in ((48 <=? n) && (n <=? 57))%nat.

(** First and further characters of a key: letters of either case,
    underscore and dollar, and digits after the first. *)
Definition key_start (c : ascii) : bool :=
  is_letter c || Ascii.eqb c "_" || Ascii.eqb c "$".

Definition key_part (c : ascii) : bool :=
  is_letter c || is_digit c || Ascii.eqb c "_" || Ascii.eqb c "$".

Definition starts_key (s : string) : bool :=
  match s with
  | String c _ => key_start c
  | EmptyString => false
  end.

(** The call of [route.replace] in [compileRoute], scanning from the left:
    a colon followed by a key is replaced by a group, a star by a lazy
    group, and a dot, plus or parenthesis is escaped.  [in_key] tells that
    the characters of a key are being consumed, the key having been
    replaced at its colon. *)
Fixpoint replace_route (in_key : bool) (route : string) : string :=
  match route with
  | EmptyString => EmptyString
  | String c rest =>
      if in_key && key_part c then replace_route true rest
      else if Ascii.eqb c ":" && starts_key rest
      then ("([^./?#]+)" ++ replace_route true rest)%string
      else if Ascii.eqb c "*"
      then ("(.*?)" ++ replace_route false rest)%string
      else if existsb (Ascii.eqb c) [ "."; "+"; "("; ")" ]%char
      then (escapeRegExp (String c EmptyString) ++ replace_route false rest)%string
      else String c (replace_route false rest)
  end.

Record RegExp : Type := mkRegExp {
  source : string;
  flags : string
}.

(** The patterns that [new RegExp] accepts; on any other pattern it throws
    a SyntaxError. *)
Class RegExpEngine : Type := {
  regexp_valid : string -> bool
}.

(** [new RegExp(pattern, flags)]: [None] is the SyntaxError thrown on a
    pattern that is not a regular expression. *)
Definition new_RegExp {engine : RegExpEngine} (pattern flags : string)
  : option RegExp :=
  if regexp_valid pattern
  then Some {| source := pattern; flags := flags |}
  else None.

Definition compileRoute {engine : RegExpEngine} (route : string)
  : option RegExp :=
  let pattern := replace_route false route in
  new_RegExp ("^" ++ pattern ++ "$")%string "i".

(** ** makeKey (utils.js, lines 127-129) *)

Definition hex_digit (n : nat) : ascii :=
  match String.get n "0123456789abcdef" with
  | Some c => c
  | None => "0"%char
  end.

(** [buffer.toString('hex')] *)
Fixpoint toString_hex (buffer : Buffer) : string :=
  match buffer with
  | [] => EmptyString
  | b :: rest =>
      let n := Byte.to_nat b in
      String (hex_digit (n / 16)) (String (hex_digit (n mod 16))
                                     (toString_hex rest))
  end.

(** [crypto.randomBytes(length).toString('hex').slice(0, length)], with
    [randomBytes] what the crypto module draws. *)
Definition makeKey (randomBytes : nat -> Buffer) (length : nat) : string :=
  String.substring 0 length (toString_hex (randomBytes length)).

(** ** Cookies (utils.js, lines 151-178) *)

Module Cookie.

(** The fields of [options] that [encodeCookie] reads; [expires] holds what
    [toUTCString()] gives for the date. *)
Record Options : Type := mkOptions {
  value : option string;
  domain : option string;
  path : option string;
  expires : option string;
  secure : bool;
  httpOnly : bool
}.

(** The argument [options]: absent, a string, or an object. *)
Inductive Arg : Type :=
| Absent
| AsString (s : string)
| AsObject (o : Options).

(** The object [{}]. *)
Definition empty : Options :=
  {| value := None; domain := None; path := None; expires := None;
     secure := false; httpOnly := false |}.

End Cookie.

Definition newline : string := String "010"%char EmptyString.

Section WithUriCodec.
Variable encodeURIComponent : string -> string.

Definition encodeCookie (name : string) (options : Cookie.Arg) : string :=
  let options :=
    match options with
    | Cookie.Absent => Cookie.empty
    | Cookie.AsString s =>
        if String.eqb s "" then Cookie.empty
        else {| Cookie.value := Some s; Cookie.domain := None;
                Cookie.path := None; Cookie.expires := None;
                Cookie.secure := false; Cookie.httpOnly := false |}
    | Cookie.AsObject o => o
    end in
  let cookie := (encodeURIComponent name ++ "=")%string in
  let cookie :=
    match truthy (Cookie.value options) with
    | Some v => (cookie ++ encodeURIComponent v)%string
    | None => cookie
    end in
  let cookie :=
    match truthy (Cookie.domain options) with
    | Some d => (cookie ++ "; domain=" ++ d)%string
    | None => cookie
    end in
  let cookie :=
    match truthy (Cookie.path options) with
    | Some p => (cookie ++ "; path=" ++ p)%string
    | None => cookie
    end in
  let cookie :=
    match Cookie.expires options with
    | Some e => (cookie ++ "; expires=" ++ e)%string
    | None => cookie
    end in
  let cookie :=
    if Cookie.secure options then (cookie ++ "; secure")%string else cookie in
  let cookie :=
    if Cookie.httpOnly options then (cookie ++ "; HttpOnly")%string
    else cookie in
  cookie.

(** [setCookie(headers, name, options)]: the headers after the call. *)
Definition setCookie (headers : Obj string) (name : string)
  (options : Cookie.Arg) : Obj string :=
  let cookie := encodeCookie name options in
  match truthy (obj_get "Set-Cookie" headers) with
  | Some old =>
      obj_set "Set-Cookie" (String.concat newline [ old; cookie ]) headers
  | None => obj_set "Set-Cookie" cookie headers
  end.

(** A sequence of calls of [setCookie] on the same headers. *)
Definition setCookies (headers : Obj string)
  (cookies : list (string * Cookie.Arg)) : Obj string :=
  fold_left (fun headers cookie => setCookie headers (fst cookie) (snd cookie))
    cookies headers.
End WithUriCodec.

(** ** path.join on a POSIX host

    [path.join] of Node for two arguments on a POSIX host, after its
    library source: the non-empty arguments are joined by a slash and the
    result is normalised. *)

(** [s.split('/')] *)
Fixpoint split_slash (s : string) : list string :=
  match s with
  | EmptyString => [EmptyString]
  | String c rest =>
      if Ascii.eqb c "/" then EmptyString :: split_slash rest
      else match split_slash rest with
           | segment :: segments => String c segment :: segments
           | [] => [String c EmptyString]
           end
  end.

Definition non_empty (s : string) : bool := negb (String.eqb s "").

Definition is_dots (s : string) : bool :=
  String.eqb s "." || String.eqb s "..".

(** One round of the loop of [normalizeArray], which runs from the last
    part to the first: a dot is dropped, two dots are dropped and counted
    in [up], and any other part is dropped while [up] is positive. *)
Definition normalize_step (part : string) (acc : list string * nat)
  : list string * nat :=
  let (kept, up) := acc in
  if String.eqb part "." then (kept, up)
  else if String.eqb part ".." then (kept, S up)
  else match up with
       | O => (part :: kept, O)
       | S up' => (kept, up')
       end.

Definition normalizeArray (parts : list string) (allowAboveRoot : bool)
  : list string :=
  let (kept, up) := fold_right normalize_step ([], O) parts in
  if allowAboveRoot then repeat ".."%string up ++ kept else kept.

Definition starts_with_slash (s : string) : bool :=
  match s with
  | String c _ => Ascii.eqb c "/"
  | EmptyString => false
  end.

Fixpoint ends_with_slash (s : string) : bool :=
  match s with
  | EmptyString => false
  | String c EmptyString => Ascii.eqb c "/"
  | String _ rest => ends_with_slash rest
  end.

(** [path.normalize(path)] *)
Definition posix_normalize (path : string) : string :=
  let isAbsolute := starts_with_slash path in
  let trailingSlash := ends_with_slash path in
  let path :=
    String.concat "/"
      (normalizeArray (filter non_empty (split_slash path))
         (negb isAbsolute)) in
  let path :=
    if String.eqb path "" && negb isAbsolute then "."%string else path in
  let path :=
    if non_empty path && trailingSlash then (path ++ "/")%string else path in
  ((if isAbsolute then "/" else "") ++ path)%string.

(** [path.join(a, b)] *)
Definition posix_join (a b : string) : string :=
  posix_normalize (String.concat "/" (filter non_empty [a; b])).

(** The last component of a path. *)
Definition basename (path : string) : string :=
  List.last (split_slash path) EmptyString.

(** No slash in the string. *)
Fixpoint no_slash (s : string) : bool :=
  match s with
  | EmptyString => true
  | String c rest => negb (Ascii.eqb c "/") && no_slash rest
  end.

(** A character of a number rendered in base 36: a digit, a lower-case
    letter, or the point before the fraction. *)
Definition is_base36_char (c : ascii) : bool :=
  let n := nat_of_ascii c in
  (((48 <=? n) && (n <=? 57)) || ((97 <=? n) && (n <=? 122)))%nat
  || Ascii.eqb c ".".

(** ** Predicates used to state properties of the utilities *)

(** A string in which every character of the class of [escapeRegExp]
    stands right after a backslash that escapes it. *)
Inductive escaped : string -> Prop :=
| escaped_nil : escaped EmptyString
| escaped_plain (c : ascii) (s : string) :
    regexp_special c = false -> escaped s -> escaped (String c s)
| escaped_pair (c : ascii) (s : string) :
    regexp_special c = true -> escaped s -> escaped (String "\" (String c s)).

(** Number of characters of the class of [escapeRegExp] in a string. *)
Fixpoint count_special (s : string) : nat :=
  match s with
  | EmptyString => 0%nat
  | String c rest =>
      ((if regexp_special c then 1 else 0) + count_special rest)%nat
  end.

(** The name of a key of a route: a first character and further ones. *)
Definition is_key_name (name : string) : bool :=
  match name with
  | EmptyString => false
  | String c rest => key_start c && forallb key_part (list_ascii_of_string rest)
  end.

(** The string is empty or starts outside the characters of a key. *)
Definition ends_key (s : string) : bool :=
  match s with
  | EmptyString => true
  | String c _ => negb (key_part c)
  end.

(** None of the characters that [compileRoute] replaces. *)
Definition is_literal_char (c : ascii) : bool :=
  negb (existsb (Ascii.eqb c) [ ":"; "*"; "."; "+"; "("; ")" ]%char).

Definition is_hex_char (c : ascii) : bool :=
  existsb (Ascii.eqb c) (list_ascii_of_string "0123456789abcdef").

(** The six exported responders with their statuses. *)
Definition responders
  : list ((option string -> option TextResponse.Response) * Z) :=
  [ (ok, 200); (badRequest, 400); (forbidden, 403); (notFound, 404);
    (requestEntityTooLarge, 413); (internalServerError, 500) ].

(** ** Sample collaborators, for evaluating the model on concrete inputs *)

(** A crypto module that accepts the usual digest names; an additive
    checksum rendered in decimal stands in for the digests. *)
Definition sample_crypto : Crypto :=
  {| Hash := Z;
     supported := fun algorithm =>
       existsb (String.eqb algorithm) ["md5"; "sha1"; "sha256"; "sha512"]%string;
     hash_new := fun _ => 0;
     hash_update := fun h chunk =>
       fold_left (fun acc b => acc + Z.of_N (Byte.to_N b)) chunk h;
     hash_hex := fun h => toDecimal (Z.to_nat h) |}.

(** A POSIX host on 17 May 2013. *)
Definition sample_platform : Platform :=
  {| tmpDir := "/tmp";
     pid := 4242;
     getYear := 113;
     getMonth := 4;
     getDate := 17;
     random36 := "1z141z4.8hd";
     path_join := fun dir name => (dir ++ "/" ++ name)%string |}.

(** The same host, with [path.join] as Node has it on POSIX. *)
Definition posix_host : Platform :=
  {| tmpDir := "/tmp";
     pid := 4242;
     getYear := 113;
     getMonth := 4;
     getDate := 17;
     random36 := "1z141z4.8hd";
     path_join := posix_join |}.

Definition sample_part : StreamToDisk.Part :=
  {| StreamToDisk.filename := Some "photo.png"%string;
     StreamToDisk.part_type := Some "image/png"%string |}.

(** Two chunks of ten bytes, ["a"*10] and ["b"*10]. *)
Definition ten_a : Buffer := repeat Byte.x61 10.
Definition ten_b : Buffer := repeat Byte.x62 10.

(** * Properties *)

(** ** Deferred values and runs *)

Lemma resolve_settled V (v : V) (d : Deferred V) :
  settled d = true -> resolve v d = d.
Proof. destruct d; simpl; congruence. Qed.

Lemma reject_settled V (e : JsError) (d : Deferred V) :
  settled d = true -> reject e d = d.
Proof. destruct d; simpl; congruence. Qed.

Lemma totalLength_nonneg (chunks : list Buffer) : 0 <= totalLength chunks.
Proof.
  induction chunks as [|c cs IH]; simpl; [lia|].
  unfold byteLength; lia.
Qed.

Lemma totalLength_app (xs ys : list Buffer) :
  totalLength (xs ++ ys) = totalLength xs + totalLength ys.
Proof. induction xs as [|x xs IH]; simpl; lia. Qed.

Lemma totalLength_concat (chunks : list Buffer) :
  byteLength (Buffer_concat chunks) = totalLength chunks.
Proof.
  unfold Buffer_concat, byteLength.
  induction chunks as [|c cs IH]; simpl; [reflexivity|].
  rewrite List.length_app, Nat2Z.inj_add, IH. reflexivity.
Qed.

Section RunFacts.
Variables (S Ev V : Type).
Variable handle : S -> Ev -> S.
Variable promise : S -> Deferred V.

Lemma deliver_cons (st : S) (ev : Ev) (rest : list Ev) :
  deliver handle st (ev :: rest) = deliver handle (handle st ev) rest.
Proof. reflexivity. Qed.

Lemma deliver_app (st : S) (xs ys : list Ev) :
  deliver handle st (xs ++ ys) = deliver handle (deliver handle st xs) ys.
Proof. apply fold_left_app. Qed.

(** The handlers reach the promise through [resolve] and [reject] only. *)
Hypothesis stable :
  forall st ev, settled (promise st) = true ->
                promise (handle st ev) = promise st.

Lemma deliver_stable (events : list Ev) (st : S) :
  settled (promise st) = true ->
  promise (deliver handle st events) = promise st.
Proof.
  revert st; induction events as [|ev rest IH]; intros st Hs; simpl.
  - reflexivity.
  - rewrite IH; rewrite stable; auto.
Qed.

Lemma settlements_count (events : list Ev) (st : S) :
  settlements handle promise st events =
  if negb (settled (promise st)) &&
     settled (promise (deliver handle st events))
  then 1%nat else 0%nat.
Proof.
  revert st; induction events as [|ev rest IH]; intros st; simpl.
  - destruct (settled (promise st)); reflexivity.
  - rewrite IH.
    destruct (settled (promise st)) eqn:Hs; simpl.
    + rewrite (stable st ev Hs), Hs. reflexivity.
    + destruct (settled (promise (handle st ev))) eqn:Hs'; simpl.
      * rewrite deliver_stable, Hs' by assumption. reflexivity.
      * reflexivity.
Qed.

Lemma settlements_at_most_once (events : list Ev) (st : S) :
  (settlements handle promise st events <= 1)%nat.
Proof.
  rewrite settlements_count.
  destruct (negb _ && _); lia.
Qed.

(** A pending promise that is settled by the end of [events] was settled
    exactly once, and stays as it is. *)
Lemma settles_exactly_once_intro (events : list Ev) (st : S) :
  promise st = Pending ->
  settled (promise (deliver handle st events)) = true ->
  settles_exactly_once handle promise st events.
Proof.
  intros Hp Hs. split.
  - rewrite settlements_count, Hp, Hs. reflexivity.
  - intros later. apply deliver_stable, Hs.
Qed.
End RunFacts.

(** ** bufferStream *)

Section BufferStreamFacts.
Import BufferStream.

Lemma exceeded_some (m l : Z) :
  m <> 0 -> m < l -> exceeded (Some m) l = Some m.
Proof.
  intros Hm Hl. unfold exceeded.
  destruct (Z.eqb_spec m 0); [contradiction|].
  destruct (Z.gtb_spec l m); [reflexivity|lia].
Qed.

Lemma exceeded_within (m l : Z) : l <= m -> exceeded (Some m) l = None.
Proof.
  intros Hl. unfold exceeded.
  destruct (Z.gtb_spec l m); [lia|].
  rewrite andb_false_r. reflexivity.
Qed.

Lemma exceeded_unbounded (maxLength : option Z) (l : Z) :
  maxLength = None \/ maxLength = Some 0 -> exceeded maxLength l = None.
Proof. intros [-> | ->]; reflexivity. Qed.

(** A limit that was exceeded stays exceeded when the total grows. *)
Lemma exceeded_mono (maxLength : option Z) (l l' m : Z) :
  exceeded maxLength l = Some m -> l <= l' -> exceeded maxLength l' = Some m.
Proof.
  destruct maxLength as [k|]; simpl; [|discriminate].
  destruct (Z.eqb_spec k 0); simpl; [discriminate|].
  destruct (Z.gtb_spec l k); [|discriminate].
  intros [= <-] Hl. destruct (Z.gtb_spec l' k); [reflexivity|lia].
Qed.

Lemma handle_stable (maxLength : option Z) (st : State) (ev : StreamEvent) :
  settled (value st) = true -> value (handle maxLength st ev) = value st.
Proof.
  intros Hs. destruct ev as [chunk| |error]; simpl.
  - unfold on_data. destruct (exceeded _ _); simpl; auto using reject_settled.
  - apply resolve_settled, Hs.
  - apply reject_settled, Hs.
Qed.

(** The handlers implement first-event-wins from any state in which the
    promise is pending and every chunk so far was kept. *)
Lemma deliver_first_event_wins (maxLength : option Z)
  (events : list StreamEvent) (st : State) :
  value st = Pending ->
  value (deliver (handle maxLength) st events) =
  first_event_wins maxLength (length st) (chunks st) events.
Proof.
  revert st; induction events as [|ev rest IH]; intros st Hp; simpl.
  - exact Hp.
  - destruct ev as [chunk| |error]; simpl.
    + unfold on_data.
      destruct (exceeded maxLength (length st + byteLength chunk)) eqn:Hx.
      * rewrite deliver_stable with (promise := value);
          [simpl|apply handle_stable|simpl]; rewrite Hp; reflexivity.
      * rewrite IH by assumption. reflexivity.
    + rewrite deliver_stable with (promise := value);
        [simpl|apply handle_stable|simpl]; rewrite Hp; reflexivity.
    + rewrite deliver_stable with (promise := value);
        [simpl|apply handle_stable|simpl]; rewrite Hp; reflexivity.
Qed.

Lemma bufferStream_first_event_wins (stream : list StreamEvent)
  (maxLength : option Z) :
  bufferStream stream maxLength = first_event_wins maxLength 0 [] stream.
Proof. apply (deliver_first_event_wins maxLength stream init). reflexivity. Qed.

(** Chunks that stay within the limit are all kept. *)
Lemma first_event_wins_within (maxLength : option Z) (cs : list Buffer)
  (total : Z) (seen : list Buffer) (rest : list StreamEvent) :
  (forall l, l <= total + totalLength cs -> exceeded maxLength l = None) ->
  first_event_wins maxLength total seen (map EvData cs ++ rest) =
  first_event_wins maxLength (total + totalLength cs) (seen ++ cs) rest.
Proof.
  revert total seen; induction cs as [|c cs IH]; intros total seen Hw;
    simpl in *.
  - rewrite Z.add_0_r, app_nil_r. reflexivity.
  - pose proof (totalLength_nonneg cs) as Hcs.
    rewrite Hw by lia.
    rewrite IH.
    + rewrite <- app_assoc. simpl. f_equal. lia.
    + intros l Hl. apply Hw. lia.
Qed.

(** Chunks whose total passes the limit reject at the first that does. *)
Lemma first_event_wins_breach (m : Z) (cs : list Buffer)
  (total : Z) (seen : list Buffer) (rest : list StreamEvent) :
  m <> 0 -> total <= m -> m < total + totalLength cs ->
  first_event_wins (Some m) total seen (map EvData cs ++ rest) =
  Rejected (MaxLengthExceededError m).
Proof.
  intros Hm. revert total seen; induction cs as [|c cs IH];
    intros total seen Ht Hb; cbn [first_event_wins map app totalLength] in *.
  - lia.
  - destruct (Z.le_gt_cases (total + byteLength c) m) as [Hle|Hgt].
    + rewrite exceeded_within by assumption. apply IH; lia.
    + rewrite exceeded_some by assumption. reflexivity.
Qed.
End BufferStreamFacts.

(** C1. With a maximum length [m > 0]: as soon as the chunks delivered so far
    total more than [m], the promise of [bufferStream] is rejected with
    [MaxLengthExceededError m], carrying the limit and not the observed
    length, and stays so whatever the stream emits later, so that no buffer
    is produced; a stream that ends with at most [m] bytes in total resolves
    the promise (with the concatenation of its chunks). *)
Theorem bufferStream_enforces_limit (chunks : list Buffer) (m : Z) :
  0 < m ->
  (forall k later,
      m < totalLength (firstn k chunks) ->
      BufferStream.bufferStream (map EvData (firstn k chunks) ++ later) (Some m)
      = Rejected (MaxLengthExceededError m))
  /\ (forall terminal,
         m < totalLength chunks ->
         BufferStream.bufferStream (emits chunks terminal) (Some m)
         = Rejected (MaxLengthExceededError m))
  /\ (totalLength chunks <= m ->
      BufferStream.bufferStream (emits chunks EvEnd) (Some m)
      = Resolved (Buffer_concat chunks)).
Proof.
  intros Hm. repeat split.
  - intros k later Hk.
    rewrite bufferStream_first_event_wins.
    apply first_event_wins_breach; lia.
  - intros terminal Hk. unfold emits.
    rewrite bufferStream_first_event_wins.
    apply first_event_wins_breach; lia.
  - intros Hle. unfold emits.
    rewrite bufferStream_first_event_wins, first_event_wins_within.
    + reflexivity.
    + intros l Hl. apply exceeded_within. lia.
Qed.

Lemma bufferStream_enforces_limit_witness :
  BufferStream.bufferStream (emits [ten_a; ten_b] EvEnd) (Some 15)
  = Rejected (MaxLengthExceededError 15)
  /\ BufferStream.bufferStream (emits [ten_a] EvEnd) (Some 15)
     = Resolved ten_a.
Proof.
  split.
  - apply (bufferStream_enforces_limit [ten_a; ten_b] (m := 15)).
    + lia.
    + vm_compute. reflexivity.
  - apply (bufferStream_enforces_limit [ten_a] (m := 15)).
    + lia.
    + vm_compute. discriminate.
Defined.

(** C5. With the maximum length absent or 0 [bufferStream] is unbounded: a
    stream that ends resolves the promise with the concatenation of all its
    chunks in arrival order, of length the sum of the chunk lengths; a
    stream that ends at once resolves it with the empty buffer. *)
Theorem bufferStream_unbounded (chunks : list Buffer) :
  BufferStream.bufferStream (emits chunks EvEnd) None
  = Resolved (Buffer_concat chunks)
  /\ BufferStream.bufferStream (emits chunks EvEnd) (Some 0)
     = Resolved (Buffer_concat chunks)
  /\ byteLength (Buffer_concat chunks) = totalLength chunks
  /\ BufferStream.bufferStream (emits [] EvEnd) None = Resolved []
  /\ BufferStream.bufferStream (emits [] EvEnd) (Some 0) = Resolved [].
Proof.
  assert (Hall : forall maxLength,
             maxLength = None \/ maxLength = Some 0 ->
             BufferStream.bufferStream (emits chunks EvEnd) maxLength
             = Resolved (Buffer_concat chunks)).
  { intros maxLength Hmax. unfold emits.
    rewrite bufferStream_first_event_wins, first_event_wins_within.
    - reflexivity.
    - intros l _. apply exceeded_unbounded, Hmax. }
  repeat split; auto using totalLength_concat.
Qed.

Section BufferStreamBreach.
Import BufferStream.
Variable maxLength : option Z.

(** The counter adds every chunk, kept or not. *)
Lemma length_accumulates (events : list StreamEvent) (st : State) :
  length (deliver (handle maxLength) st events)
  = length st + totalLength (data_chunks events).
Proof.
  revert st; induction events as [|ev rest IH]; intros st; simpl.
  - lia.
  - rewrite IH. destruct ev as [chunk| |error]; simpl; try lia.
    unfold on_data. destruct (exceeded _ _); simpl; lia.
Qed.

(** Past the limit no chunk is kept. *)
Lemma chunks_frozen (m : Z) (events : list StreamEvent) (st : State) :
  exceeded maxLength (length st) = Some m ->
  chunks (deliver (handle maxLength) st events) = chunks st.
Proof.
  revert st; induction events as [|ev rest IH]; intros st Hx; simpl.
  - reflexivity.
  - destruct ev as [chunk| |error]; simpl.
    + assert (Hx' : exceeded maxLength (length st + byteLength chunk) = Some m).
      { apply exceeded_mono with (l := length st); [assumption|].
        unfold byteLength; lia. }
      unfold on_data. rewrite Hx'. rewrite IH; simpl; auto.
    + rewrite IH; simpl; auto.
    + rewrite IH; simpl; auto.
Qed.

(** The chunks kept are a prefix of the chunks delivered. *)
Lemma chunks_prefix (events : list StreamEvent) (st : State) :
  exists rest,
    chunks st ++ data_chunks events
    = chunks (deliver (handle maxLength) st events) ++ rest.
Proof.
  revert st; induction events as [|ev rest IH]; intros st; simpl.
  - exists []. reflexivity.
  - destruct ev as [chunk| |error]; simpl; try apply (IH (on_end st));
      try apply (IH (on_error st error)).
    unfold on_data.
    destruct (exceeded maxLength (length st + byteLength chunk)) eqn:Hx.
    + exists (chunk :: data_chunks rest).
      rewrite chunks_frozen with (m := z); simpl; auto.
    + destruct (IH {| value := value st; chunks := chunks st ++ [chunk];
                      length := length st + byteLength chunk |}) as [r Hr].
      exists r. rewrite <- Hr. simpl. rewrite <- app_assoc. reflexivity.
Qed.
End BufferStreamBreach.

(** C9. Once a chunk takes the running length of [bufferStream] past the
    configured maximum, neither that chunk nor any later one is appended to
    [chunks]: the counter keeps adding every chunk, every later ['data']
    event takes the rejecting branch again, and [chunks] stays what it was
    before the breach, a prefix of the chunks delivered before it. *)
Theorem bufferStream_breach_freezes_chunks (maxLength : option Z) (m : Z)
  (before after : list StreamEvent) (chunk : Buffer) :
  BufferStream.exceeded maxLength
    (BufferStream.length (BufferStream.run before maxLength) + byteLength chunk)
  = Some m ->
  let st := BufferStream.run before maxLength in
  let st' := BufferStream.run (before ++ EvData chunk :: after) maxLength in
  BufferStream.chunks st' = BufferStream.chunks st
  /\ (exists rest, data_chunks before = BufferStream.chunks st ++ rest)
  /\ BufferStream.length st'
     = BufferStream.length st + byteLength chunk
       + totalLength (data_chunks after)
  /\ (forall later c,
         BufferStream.exceeded maxLength
           (BufferStream.length
              (BufferStream.run (before ++ EvData chunk :: later) maxLength)
            + byteLength c)
         = Some m).
Proof.
  intros Hx st st'. subst st st'. unfold BufferStream.run in *.
  set (st := deliver (BufferStream.handle maxLength) BufferStream.init before) in *.
  assert (Hst1 : BufferStream.handle maxLength st (EvData chunk)
                 = {| BufferStream.value :=
                        reject (MaxLengthExceededError m) (BufferStream.value st);
                      BufferStream.chunks := BufferStream.chunks st;
                      BufferStream.length :=
                        BufferStream.length st + byteLength chunk |}).
  { simpl. unfold BufferStream.on_data. rewrite Hx. reflexivity. }
  repeat split.
  - rewrite deliver_app. fold st. simpl. fold (BufferStream.handle maxLength st (EvData chunk)).
    rewrite Hst1. rewrite chunks_frozen with (m := m); auto.
  - destruct (chunks_prefix maxLength before BufferStream.init) as [r Hr].
    exists r. exact Hr.
  - rewrite deliver_app. fold st. rewrite length_accumulates. simpl. lia.
  - intros after1 c.
    rewrite deliver_app. fold st. rewrite length_accumulates. simpl.
    apply exceeded_mono with (l := BufferStream.length st + byteLength chunk);
      [assumption|].
    pose proof (totalLength_nonneg (data_chunks after1)).
    unfold byteLength. lia.
Qed.

Lemma bufferStream_breach_freezes_chunks_witness :
  BufferStream.chunks
    (BufferStream.run
       ([EvData ten_a] ++ EvData ten_b :: [EvData [Byte.x63]; EvEnd]) (Some 15))
  = [ten_a].
Proof.
  apply (bufferStream_breach_freezes_chunks (Some 15) (m := 15)
           [EvData ten_a] [EvData [Byte.x63]; EvEnd] ten_b).
  vm_compute. reflexivity.
Defined.

(** ** streamToDisk *)

Section StreamToDiskFacts.
Import StreamToDisk.
Context {platform : Platform}.

(** The set-up of [streamToDisk] never throws; it opens the file at the
    temporary path and leaves the promise pending. *)
Lemma streamToDisk_starts (part : Part) (filePrefix : option string) :
  exists st0,
    (forall trace, run part filePrefix trace = Ok (deliver handle st0 trace))
    /\ info st0 = {| path := makeTemporaryPath filePrefix;
                     name := filename part; type := part_type part;
                     size := 0 |}
    /\ stream st0 = {| target := makeTemporaryPath filePrefix;
                       written := []; queue := []; ending := false;
                       finished := false |}
    /\ value st0 = Pending
    /\ uncaught st0 = None.
Proof.
  eexists. split; [intros trace; reflexivity|].
  repeat split.
Qed.

Ltac step_cases st ev :=
  unfold handle; destruct (uncaught st) eqn:?; [|
    destruct ev as [[?| |?]| |?|];
    unfold on_data, write, on_end, on_error, on_write_done,
      on_write_failed, on_finish; cbn;
    destruct (queue (stream st)) eqn:?;
    destruct (ending (stream st)) eqn:?;
    destruct (finished (stream st)) eqn:?];
  simpl.

(** No handler touches the path, the declared name and type, or the
    target of the stream. *)
Lemma handle_static (st : State) (ev : Event) :
  path (info (handle st ev)) = path (info st)
  /\ name (info (handle st ev)) = name (info st)
  /\ type (info (handle st ev)) = type (info st)
  /\ target (stream (handle st ev)) = target (stream st).
Proof. step_cases st ev; auto. Qed.

Lemma deliver_static (trace : list Event) (st : State) :
  path (info (deliver handle st trace)) = path (info st)
  /\ name (info (deliver handle st trace)) = name (info st)
  /\ type (info (deliver handle st trace)) = type (info st)
  /\ target (stream (deliver handle st trace)) = target (stream st).
Proof.
  revert st; induction trace as [|ev rest IH]; intros st; simpl; auto.
  destruct (IH (handle st ev)) as (-> & -> & -> & ->).
  apply handle_static.
Qed.

Lemma value_stable (st : State) (ev : Event) :
  settled (value st) = true -> value (handle st ev) = value st.
Proof.
  intros Hs. step_cases st ev; auto using reject_settled, resolve_settled.
Qed.

(** A rejection can only come from the ['error'] handler of the part. *)
Lemma handle_rejects (st : State) (ev : Event) (reason : JsError) :
  value (handle st ev) = Rejected reason ->
  value st = Rejected reason \/ ev = FromPart (EvError reason).
Proof.
  step_cases st ev; auto;
    destruct (value st) eqn:Hv; simpl; try discriminate; auto.
  all: intros [= ->]; auto.
Qed.

Lemma deliver_rejects (trace : list Event) (st : State) (reason : JsError) :
  value (deliver handle st trace) = Rejected reason ->
  value st = Rejected reason \/ In (FromPart (EvError reason)) trace.
Proof.
  revert st; induction trace as [|ev rest IH]; intros st; simpl; auto.
  intros Hr. destruct (IH _ Hr) as [Hv|Hin]; auto.
  destruct (handle_rejects _ _ Hv) as [Hst| ->]; auto.
Qed.

(** The promise is resolved only by the callback of [stream.end], which
    runs when the stream has flushed its queue and finished. *)
Lemma handle_closed_before_resolved (st : State) (ev : Event) :
  closed_before_resolved st -> closed_before_resolved (handle st ev).
Proof.
  unfold closed_before_resolved. intros [Hres Hfin].
  assert (Hopen : ending (stream st) = false ->
                  finished (stream st) = false
                  /\ value st <> Resolved InfoObject).
  { intros He. destruct (finished (stream st)) eqn:Hf.
    - destruct (Hfin eq_refl) as [_ He']. congruence.
    - split; [reflexivity|]. intros Hv. apply Hres in Hv. discriminate. }
  assert (Hbusy : queue (stream st) <> [] ->
                  finished (stream st) = false
                  /\ value st <> Resolved InfoObject).
  { intros Hq. destruct (finished (stream st)) eqn:Hf.
    - destruct (Hfin eq_refl) as [Hq' _]. contradiction.
    - split; [reflexivity|]. intros Hv. apply Hres in Hv. discriminate. }
  assert (Hrej : forall e, reject e (value st) = Resolved InfoObject ->
                           value st = Resolved InfoObject).
  { intros e. destruct (value st); simpl; congruence. }
  unfold handle. destruct (uncaught st); [auto|].
  destruct ev as [[chunk| |error]| |error|]; cbn.
  - unfold on_data, write; cbn.
    destruct (ending (stream st)) eqn:He; cbn; rewrite ?He;
      [split; [exact Hres|exact Hfin]|].
    destruct (Hopen eq_refl) as [Hf Hv]. rewrite Hf.
    split; [contradiction|discriminate].
  - unfold on_end; cbn. split; [exact Hres|].
    intros Hf. destruct (Hfin Hf) as [Hq _]. auto.
  - unfold on_error; cbn. split; [|exact Hfin].
    intros Hv. apply Hres, (Hrej error), Hv.
  - unfold on_write_done.
    destruct (queue (stream st)) as [|c q] eqn:Hq; cbn; [rewrite Hq; auto|].
    destruct Hbusy as [Hf Hv]; [discriminate|]. rewrite Hf.
    split; [contradiction|discriminate].
  - unfold on_write_failed.
    destruct (queue (stream st)) as [|c q] eqn:Hq; cbn; [rewrite Hq; auto|].
    destruct Hbusy as [Hf Hv]; [discriminate|]. rewrite Hf.
    split; [contradiction|discriminate].
  - unfold on_finish.
    destruct (ending (stream st)) eqn:He;
      destruct (queue (stream st)) as [|c q] eqn:Hq;
      destruct (finished (stream st)) eqn:Hf; cbn;
      rewrite ?Hq, ?He, ?Hf; auto.
Qed.

Lemma deliver_closed_before_resolved (trace : list Event) (st : State) :
  closed_before_resolved st ->
  closed_before_resolved (deliver handle st trace).
Proof.
  revert st; induction trace as [|ev rest IH]; intros st Hst; simpl; auto.
  apply IH, handle_closed_before_resolved, Hst.
Qed.
End StreamToDiskFacts.

Section StreamToDiskPhases.
Import StreamToDisk.

Lemma storage_ok_app (xs ys : list Event) :
  storage_ok (xs ++ ys) = storage_ok xs && storage_ok ys.
Proof. apply forallb_app. Qed.

(** A trace whose part emits [xs] and then [last] splits at [last]. *)
Lemma part_events_split (trace : list Event) (xs : list StreamEvent)
  (last : StreamEvent) :
  part_events trace = xs ++ [last] ->
  exists before after,
    trace = before ++ FromPart last :: after
    /\ part_events before = xs
    /\ part_events after = [].
Proof.
  revert xs; induction trace as [|ev rest IH]; intros xs Hp.
  - destruct xs; discriminate.
  - destruct ev as [e| |error|].
    + destruct xs as [|x xs']; simpl in Hp.
      * injection Hp as -> Hrest.
        exists [], rest. auto.
      * injection Hp as -> Hrest.
        destruct (IH _ Hrest) as (b & a & -> & Hb & Ha).
        exists (FromPart x :: b), a. simpl. rewrite Hb. auto.
    + destruct (IH _ Hp) as (b & a & -> & Hb & Ha).
      exists (AckWrite :: b), a. auto.
    + destruct (IH _ Hp) as (b & a & -> & Hb & Ha).
      exists (FailWrite error :: b), a. auto.
    + destruct (IH _ Hp) as (b & a & -> & Hb & Ha).
      exists (Finish :: b), a. auto.
Qed.

(** While the part emits chunks and no write fails, each chunk is handed
    to the stream on arrival. *)
Lemma collecting_deliver (trace : list Event) (st : State)
  (seen cs : list Buffer) (acks : nat) :
  collecting seen acks st ->
  part_events trace = map EvData cs ->
  storage_ok trace = true ->
  collecting (seen ++ cs) (acks + acknowledged trace) (deliver handle st trace).
Proof.
  revert st seen cs acks; induction trace as [|ev rest IH];
    intros st seen cs acks Hc Hp Hok.
  - destruct cs; [|discriminate]. simpl.
    rewrite app_nil_r, Nat.add_0_r. exact Hc.
  - destruct Hc as (Hu & He & Hf & Hv & Hsz & done & Hseen & Hw & Hacks).
    simpl. unfold handle at 2. rewrite Hu.
    destruct ev as [[chunk| |error]| |error|]; simpl in Hp, Hok.
    + destruct cs as [|c cs']; [discriminate|].
      injection Hp as -> Hrest.
      replace (seen ++ c :: cs') with ((seen ++ [c]) ++ cs')
        by (rewrite <- app_assoc; reflexivity).
      apply IH; auto.
      unfold on_data, write; cbn. rewrite He; cbn.
      repeat split; auto.
      * rewrite Hsz, totalLength_app. simpl. lia.
      * exists done. rewrite Hseen, <- app_assoc. auto.
    + destruct cs; discriminate.
    + destruct cs; discriminate.
    + replace (acks + acknowledged (AckWrite :: rest))%nat
        with (S acks + acknowledged rest)%nat
        by (unfold acknowledged; simpl; lia).
      apply IH; auto.
      unfold on_write_done.
      destruct (queue (stream st)) as [|c q] eqn:Hq.
      * repeat split; auto. exists done. rewrite Hq. auto.
      * repeat split; auto. cbn.
        exists (done ++ [c]). rewrite <- app_assoc. simpl.
        repeat split; auto.
        -- rewrite Hw. unfold Buffer_concat.
           rewrite concat_app. simpl. rewrite app_nil_r. reflexivity.
        -- rewrite List.length_app. simpl. lia.
    + discriminate.
    + replace (acks + acknowledged (Finish :: rest))%nat
        with (acks + acknowledged rest)%nat
        by (unfold acknowledged; simpl; lia).
      apply IH; auto.
      unfold on_finish. rewrite He.
      repeat split; auto. exists done. auto.
Qed.

(** Once the part has ended, the storage layer alone drives the stream. *)
Lemma draining_deliver (trace : list Event) (st : State)
  (content : Buffer) (i : StoredPartInfo) :
  draining content i st ->
  part_events trace = [] ->
  storage_ok trace = true ->
  draining content i (deliver handle st trace).
Proof.
  revert st; induction trace as [|ev rest IH]; intros st Hd Hp Hok.
  - exact Hd.
  - destruct Hd as (Hu & Hi & He & Hw & Hcase).
    simpl. unfold handle at 2. rewrite Hu.
    destruct ev as [e| |error|]; simpl in Hp, Hok;
      try discriminate; apply IH; auto.
    + unfold on_write_done.
      destruct (queue (stream st)) as [|c q] eqn:Hq.
      * repeat split; rewrite ?Hq; auto.
      * destruct Hcase as [[Hf Hv]|[Hf [Hq' Hv]]]; [|discriminate].
        repeat split; auto; cbn.
        rewrite <- Hw. unfold Buffer_concat. simpl.
        rewrite <- app_assoc. reflexivity.
    + unfold on_finish. rewrite He.
      destruct Hcase as [[Hf Hv]|[Hf [Hq' Hv]]]; rewrite Hf.
      * destruct (queue (stream st)) as [|c q] eqn:Hq.
        -- repeat split; auto; cbn.
           right. rewrite Hv. auto.
        -- repeat split; rewrite ?Hq; auto.
      * rewrite Hq'. repeat split; rewrite ?Hq'; auto.
        rewrite <- Hq'. exact Hw.
Qed.

(** Acknowledging every queued write empties the queue into the file. *)
Lemma acks_flush (q : list Buffer) (st : State) :
  uncaught st = None ->
  queue (stream st) = q ->
  let st' := deliver handle st (repeat AckWrite (List.length q)) in
  uncaught st' = None
  /\ info st' = info st
  /\ value st' = value st
  /\ ending (stream st') = ending (stream st)
  /\ finished (stream st') = finished (stream st)
  /\ queue (stream st') = []
  /\ written (stream st') = written (stream st) ++ Buffer_concat q.
Proof.
  revert st; induction q as [|c q IH]; intros st Hu Hq; cbv zeta.
  - simpl. rewrite app_nil_r. auto 10.
  - change (repeat AckWrite (List.length (c :: q)))
      with (AckWrite :: repeat AckWrite (List.length q)).
    rewrite deliver_cons.
    assert (Hstep : exists s,
               handle st AckWrite = s /\ uncaught s = None
               /\ info s = info st /\ value s = value st
               /\ ending (stream s) = ending (stream st)
               /\ finished (stream s) = finished (stream st)
               /\ queue (stream s) = q
               /\ written (stream s) = written (stream st) ++ c).
    { eexists. split; [reflexivity|].
      unfold handle. rewrite Hu. unfold on_write_done. rewrite Hq.
      cbn. auto 10. }
    destruct Hstep as (s & -> & Hu' & Hi' & Hv' & He' & Hf' & Hq' & Hw').
    pose proof (IH s Hu' Hq') as H. cbv zeta in H.
    destruct H as (H1 & H2 & H3 & H4 & H5 & H6 & H7).
    rewrite H1, H2, H3, H4, H5, H6, H7, Hi', Hv', He', Hf', Hw'.
    unfold Buffer_concat. simpl. rewrite <- app_assoc. auto 10.
Qed.

(** A storage layer that fails no write brings a draining stream to its
    end, and the promise to resolution. *)
Lemma draining_completes (st : State) (content : Buffer)
  (i : StoredPartInfo) :
  draining content i st ->
  let st' := deliver handle st (storage_completes st) in
  uncaught st' = None
  /\ info st' = i
  /\ value st' = Resolved InfoObject
  /\ ending (stream st') = true
  /\ finished (stream st') = true
  /\ queue (stream st') = []
  /\ written (stream st') = content.
Proof.
  intros (Hu & Hi & He & Hw & Hcase). unfold storage_completes.
  cbv zeta. rewrite deliver_app.
  pose proof (acks_flush st Hu eq_refl) as H. cbv zeta in H.
  destruct H as (H1 & H2 & H3 & H4 & H5 & H6 & H7).
  set (s1 := deliver handle st _) in *.
  simpl. unfold handle. rewrite H1. unfold on_finish.
  rewrite H4, He, H6, H5.
  destruct Hcase as [[Hf Hv]|[Hf [Hq' Hv]]]; rewrite Hf; cbn.
  - rewrite H3, Hv. simpl. repeat split; congruence.
  - repeat split; congruence.
Qed.
End StreamToDiskPhases.

Section StreamToDiskRuns.
Import StreamToDisk.
Context {platform : Platform}.

(** After an uncaught error no handler runs. *)
Lemma deliver_uncaught (trace : list Event) (st : State) (e : JsError) :
  uncaught st = Some e -> deliver handle st trace = st.
Proof.
  intros Hu. induction trace as [|ev rest IH]; [reflexivity|].
  rewrite deliver_cons. unfold handle at 2. rewrite Hu. exact IH.
Qed.

(** The state after the set-up satisfies the invariants. *)
Lemma run_reaches (part : Part) (filePrefix : option string)
  (trace : list Event) :
  exists st0 st,
    run part filePrefix trace = Ok st
    /\ st = deliver handle st0 trace
    /\ (forall other, run part filePrefix other = Ok (deliver handle st0 other))
    /\ collecting [] 0 st0
    /\ closed_before_resolved st
    /\ path (info st) = makeTemporaryPath filePrefix
    /\ name (info st) = filename part
    /\ type (info st) = part_type part
    /\ target (stream st) = makeTemporaryPath filePrefix.
Proof.
  destruct (streamToDisk_starts part filePrefix)
    as (st0 & Hrun & Hi & Hs & Hv & Hu).
  exists st0, (deliver handle st0 trace).
  destruct (deliver_static trace st0) as (Hp & Hn & Ht & Hg).
  split; [apply Hrun|]. split; [reflexivity|]. split; [exact Hrun|].
  split.
  { unfold collecting. rewrite Hs, Hi, Hv, Hu. simpl.
    repeat split. exists []. auto. }
  split.
  { apply deliver_closed_before_resolved.
    split; [rewrite Hv; discriminate | rewrite Hs; discriminate]. }
  rewrite Hp, Hn, Ht, Hg, Hi, Hs. simpl. auto.
Qed.

(** A part that emits [cs] and ends, over a storage layer that fails no
    write, leaves the stream draining the bytes of [cs]. *)
Lemma ended_part_drains (st0 : State) (trace : list Event)
  (cs : list Buffer) :
  collecting [] 0 st0 ->
  part_events trace = emits cs EvEnd ->
  storage_ok trace = true ->
  exists i,
    draining (Buffer_concat cs) i (deliver handle st0 trace)
    /\ size i = totalLength cs.
Proof.
  intros Hc Hp Hok.
  destruct (@part_events_split trace (map EvData cs) EvEnd Hp) as (b & a & -> & Hb & Ha).
  rewrite storage_ok_app in Hok. apply andb_prop in Hok as [Hokb Hoka].
  pose proof (@collecting_deliver b st0 [] cs 0 Hc Hb Hokb) as Hc1. simpl in Hc1.
  destruct Hc1 as (Hu & He & Hf & Hv & Hsz & done & Hseen & Hw & _).
  rewrite deliver_app, deliver_cons.
  set (st1 := deliver handle st0 b) in *.
  exists (info st1). split; [|exact Hsz].
  apply draining_deliver; auto.
  unfold handle. rewrite Hu. unfold on_end. cbn.
  repeat split; auto.
  rewrite Hw, Hseen. unfold Buffer_concat. rewrite concat_app. reflexivity.
Qed.
End StreamToDiskRuns.

(** C4. When the part emits chunks [cs] and ends, and the storage layer
    fails no write, [streamToDisk] resolves once the stream has flushed and
    finished: the resolved [info] has [size] the total length of [cs], its
    [path] is the target of the stream, whose file holds exactly the bytes
    of [cs] in emission order, and [name] and [type] are the part's
    [filename] and [type] unchanged.  In every run, a resolved promise means
    a finished stream with an empty queue. *)
Theorem streamToDisk_stores_part {platform : Platform}
  (part : StreamToDisk.Part) (filePrefix : option string)
  (trace : list StreamToDisk.Event) (cs : list Buffer) :
  StreamToDisk.part_events trace = emits cs EvEnd ->
  StreamToDisk.storage_ok trace = true ->
  exists st st',
    StreamToDisk.run part filePrefix trace = Ok st
    /\ StreamToDisk.run part filePrefix
         (trace ++ StreamToDisk.storage_completes st) = Ok st'
    /\ StreamToDisk.outcome st'
       = Resolved {| StreamToDisk.path := makeTemporaryPath filePrefix;
                     StreamToDisk.name := StreamToDisk.filename part;
                     StreamToDisk.type := StreamToDisk.part_type part;
                     StreamToDisk.size := totalLength cs |}
    /\ StreamToDisk.target (StreamToDisk.stream st')
       = makeTemporaryPath filePrefix
    /\ StreamToDisk.written (StreamToDisk.stream st') = Buffer_concat cs
    /\ StreamToDisk.queue (StreamToDisk.stream st') = []
    /\ StreamToDisk.finished (StreamToDisk.stream st') = true
    /\ (forall earlier s,
           StreamToDisk.run part filePrefix earlier = Ok s ->
           StreamToDisk.value s = Resolved StreamToDisk.InfoObject ->
           StreamToDisk.finished (StreamToDisk.stream s) = true
           /\ StreamToDisk.queue (StreamToDisk.stream s) = []).
Proof.
  intros Hp Hok.
  destruct (run_reaches part filePrefix trace)
    as (st0 & st & Hrun & -> & Hall & Hc & _).
  destruct (@ended_part_drains st0 trace cs Hc Hp Hok) as (i & Hd & Hsz).
  set (st := deliver StreamToDisk.handle st0 trace) in *.
  destruct (run_reaches part filePrefix
              (trace ++ StreamToDisk.storage_completes st))
    as (st0' & st' & Hrun' & Hst' & Hall' & _ & _ & Hpath & Hname & Htype & Htgt).
  assert (Hsame : st' = deliver StreamToDisk.handle st
                          (StreamToDisk.storage_completes st)).
  { rewrite Hall, deliver_app in Hrun'. fold st in Hrun'. congruence. }
  pose proof (draining_completes Hd) as Hfin. cbv zeta in Hfin.
  fold st in Hfin. rewrite <- Hsame in Hfin.
  destruct Hfin as (Hu & Hi & Hv & He & Hf & Hq & Hw).
  exists st, st'. repeat split; auto.
  - unfold StreamToDisk.outcome. rewrite Hv. f_equal.
    destruct (StreamToDisk.info st') as [p n t s] eqn:Hinfo.
    simpl in *. subst i. simpl in Hsz. congruence.
  - destruct (run_reaches part filePrefix earlier)
      as (? & s' & Hr & _ & _ & _ & [Hres _] & _).
    assert (s' = s) by congruence. subst s'. auto.
  - destruct (run_reaches part filePrefix earlier)
      as (? & s' & Hr & _ & _ & _ & [Hres Hclosed] & _).
    assert (s' = s) by congruence. subst s'. apply Hclosed. auto.
Qed.

Lemma streamToDisk_stores_part_witness :
  exists st st',
    StreamToDisk.run (platform := sample_platform) sample_part (Some "upload-"%string)
      [StreamToDisk.FromPart (EvData ten_a); StreamToDisk.AckWrite;
       StreamToDisk.FromPart (EvData ten_b); StreamToDisk.FromPart EvEnd]
    = Ok st
    /\ StreamToDisk.run (platform := sample_platform) sample_part (Some "upload-"%string)
         ([StreamToDisk.FromPart (EvData ten_a); StreamToDisk.AckWrite;
           StreamToDisk.FromPart (EvData ten_b); StreamToDisk.FromPart EvEnd]
          ++ StreamToDisk.storage_completes st)
       = Ok st'
    /\ StreamToDisk.outcome st'
       = Resolved {| StreamToDisk.path := "/tmp/upload-113417-4242-1z141z4.8hd";
                     StreamToDisk.name := Some "photo.png"%string;
                     StreamToDisk.type := Some "image/png"%string;
                     StreamToDisk.size := 20 |}
    /\ StreamToDisk.written (StreamToDisk.stream st') = ten_a ++ ten_b.
Proof.
  destruct (streamToDisk_stores_part (platform := sample_platform)
              sample_part (Some "upload-"%string)
              [StreamToDisk.FromPart (EvData ten_a); StreamToDisk.AckWrite;
               StreamToDisk.FromPart (EvData ten_b);
               StreamToDisk.FromPart EvEnd]
              [ten_a; ten_b] eq_refl eq_refl)
    as (st & st' & H1 & H2 & H3 & _ & H5 & _).
  exists st, st'. repeat split; assumption.
Defined.

Section StreamToDiskWrites.
Import StreamToDisk.

Lemma part_events_part_emits (events : list StreamEvent) :
  part_events (part_emits events) = events.
Proof.
  induction events as [|e rest IH]; simpl; [reflexivity|].
  f_equal. exact IH.
Qed.

Lemma storage_ok_part_emits (events : list StreamEvent) :
  storage_ok (part_emits events) = true.
Proof. induction events as [|e rest IH]; simpl; auto. Qed.

Lemma acknowledged_part_emits (events : list StreamEvent) :
  acknowledged (part_emits events) = 0%nat.
Proof. induction events as [|e rest IH]; simpl; auto. Qed.
End StreamToDiskWrites.

(** C3, as the code has it.  [streamToDisk] hands every chunk to
    [stream.write] when it arrives and does not wait for the write before
    it: while the part emits chunks [cs] and no write fails, the chunks
    acknowledged so far are in the file and all the others are queued, in
    emission order, so that at least [length cs - acknowledged trace] chunks
    are in flight, and all of [cs] when nothing was acknowledged. *)
Theorem streamToDisk_writes_without_waiting {platform : Platform}
  (part : StreamToDisk.Part) (filePrefix : option string)
  (trace : list StreamToDisk.Event) (cs : list Buffer) :
  StreamToDisk.part_events trace = map EvData cs ->
  StreamToDisk.storage_ok trace = true ->
  exists st done,
    StreamToDisk.run part filePrefix trace = Ok st
    /\ cs = done ++ StreamToDisk.queue (StreamToDisk.stream st)
    /\ StreamToDisk.written (StreamToDisk.stream st) = Buffer_concat done
    /\ (List.length cs - StreamToDisk.acknowledged trace
        <= List.length (StreamToDisk.queue (StreamToDisk.stream st)))%nat
    /\ (StreamToDisk.acknowledged trace = 0%nat ->
        StreamToDisk.queue (StreamToDisk.stream st) = cs)
    /\ StreamToDisk.value st = Pending.
Proof.
  intros Hp Hok.
  destruct (run_reaches part filePrefix trace)
    as (st0 & st & Hrun & -> & _ & Hc & _).
  pose proof (@collecting_deliver trace st0 [] cs 0 Hc Hp Hok) as Hc1.
  simpl in Hc1.
  destruct Hc1 as (_ & _ & _ & Hv & _ & done & Hseen & Hw & Hacks).
  exists (deliver StreamToDisk.handle st0 trace), done.
  repeat split; auto.
  - rewrite Hseen at 1. rewrite List.length_app. lia.
  - intros H0. rewrite H0 in Hacks.
    destruct done; [symmetry; exact Hseen | simpl in Hacks; lia].
Qed.

Lemma streamToDisk_writes_without_waiting_witness :
  exists st,
    StreamToDisk.run (platform := sample_platform) sample_part None
      (StreamToDisk.part_emits [EvData ten_a; EvData ten_b; EvData ten_a])
    = Ok st
    /\ StreamToDisk.queue (StreamToDisk.stream st) = [ten_a; ten_b; ten_a].
Proof.
  destruct (streamToDisk_writes_without_waiting (platform := sample_platform)
              sample_part None
              (StreamToDisk.part_emits [EvData ten_a; EvData ten_b; EvData ten_a])
              [ten_a; ten_b; ten_a] eq_refl eq_refl)
    as (st & done & Hrun & _ & _ & _ & Hq & _).
  exists st. split; [exact Hrun | apply Hq; reflexivity].
Defined.

(** C3 as stated fails: two chunks emitted back to back are both in flight,
    the second handed to the stream while the first is unacknowledged. *)
Lemma streamToDisk_two_chunks_in_flight :
  exists st,
    StreamToDisk.run (platform := sample_platform) sample_part None
      [StreamToDisk.FromPart (EvData ten_a);
       StreamToDisk.FromPart (EvData ten_b)]
    = Ok st
    /\ StreamToDisk.written (StreamToDisk.stream st) = []
    /\ StreamToDisk.queue (StreamToDisk.stream st) = [ten_a; ten_b]
    /\ ~ (List.length (StreamToDisk.queue (StreamToDisk.stream st)) <= 1)%nat.
Proof.
  eexists. split; [reflexivity|]. simpl. repeat split. lia.
Qed.

(** C6, as the code has it.  When the oldest queued write fails,
    [streamToDisk] does not fail: no handler of it sees the error, which
    stays an unhandled ['error'] event of the stream, and the promise keeps
    the state it had, then and after any later event.  That state is not a
    resolution, so no success value is returned, and it is a rejection only
    if the part had emitted that very error before. *)
Theorem streamToDisk_write_failure_unobserved {platform : Platform}
  (part : StreamToDisk.Part) (filePrefix : option string)
  (before after : list StreamToDisk.Event) (error : JsError)
  (st : StreamToDisk.State) :
  StreamToDisk.run part filePrefix before = Ok st ->
  StreamToDisk.uncaught st = None ->
  StreamToDisk.queue (StreamToDisk.stream st) <> [] ->
  exists st',
    StreamToDisk.run part filePrefix
      (before ++ StreamToDisk.FailWrite error :: after) = Ok st'
    /\ StreamToDisk.uncaught st' = Some error
    /\ StreamToDisk.value st' = StreamToDisk.value st
    /\ StreamToDisk.value st' <> Resolved StreamToDisk.InfoObject
    /\ (forall reason,
           StreamToDisk.value st' = Rejected reason ->
           In (StreamToDisk.FromPart (EvError reason)) before).
Proof.
  intros Hrun Hu Hq.
  destruct (run_reaches part filePrefix before)
    as (st0 & s & Hr & Hs0 & Hall & Hc & [Hres Hfin] & _).
  assert (Hs : st = deliver StreamToDisk.handle st0 before) by congruence.
  assert (s = st) by congruence. clear Hs0. subst s.
  set (st1 := StreamToDisk.handle st (StreamToDisk.FailWrite error)).
  assert (H1 : StreamToDisk.uncaught st1 = Some error
               /\ StreamToDisk.value st1 = StreamToDisk.value st).
  { subst st1. unfold StreamToDisk.handle. rewrite Hu.
    unfold StreamToDisk.on_write_failed.
    destruct (StreamToDisk.queue (StreamToDisk.stream st)); [contradiction|].
    simpl. auto. }
  destruct H1 as [Hu1 Hv1].
  exists st1. split.
  { rewrite Hall, deliver_app, deliver_cons, <- Hs. fold st1.
    rewrite (deliver_uncaught after st1 Hu1). reflexivity. }
  repeat split; auto.
  - rewrite Hv1. intros Hv. apply Hres in Hv.
    destruct (Hfin Hv) as [Hq' _]. contradiction.
  - intros reason Hrej. rewrite Hv1, Hs in Hrej.
    destruct (deliver_rejects _ _ Hrej) as [Hv0|Hin]; [|exact Hin].
    destruct Hc as (_ & _ & _ & Hp & _). congruence.
Qed.

Lemma streamToDisk_write_failure_unobserved_witness :
  exists st',
    StreamToDisk.run (platform := sample_platform) sample_part None
      ([StreamToDisk.FromPart (EvData ten_a)]
       ++ StreamToDisk.FailWrite (IoError "ENOSPC")
       :: [StreamToDisk.FromPart EvEnd; StreamToDisk.Finish])
    = Ok st'
    /\ StreamToDisk.value st' = Pending.
Proof.
  destruct (@streamToDisk_write_failure_unobserved sample_platform
              sample_part None [StreamToDisk.FromPart (EvData ten_a)]
              [StreamToDisk.FromPart EvEnd; StreamToDisk.Finish]
              (IoError "ENOSPC") _ eq_refl eq_refl)
    as (st' & Hrun & _ & Hv & _).
  - simpl. discriminate.
  - exists st'. split; [exact Hrun | exact Hv].
Defined.

(** C6 as stated fails: after a failed write the promise is still pending
    and rejected with nothing, while the error sits unhandled. *)
Lemma streamToDisk_write_failure_not_rejected :
  exists st,
    StreamToDisk.run (platform := sample_platform) sample_part None
      [StreamToDisk.FromPart (EvData ten_a);
       StreamToDisk.FailWrite (IoError "ENOSPC")]
    = Ok st
    /\ StreamToDisk.value st = Pending
    /\ StreamToDisk.uncaught st = Some (IoError "ENOSPC")
    /\ ~ (exists reason, StreamToDisk.outcome st = Rejected reason).
Proof.
  eexists. split; [reflexivity|]. simpl. repeat split.
  intros [reason H]. discriminate H.
Qed.

(** C10. [streamToDisk] has no byte ceiling: whatever chunks the part
    emits, each is counted in [size] and handed to the stream, and the
    promise stays pending with no error raised; in any run, a rejected
    promise carries the error of an ['error'] event of the part. *)
Theorem streamToDisk_has_no_size_limit {platform : Platform}
  (part : StreamToDisk.Part) (filePrefix : option string)
  (trace : list StreamToDisk.Event) (cs : list Buffer) :
  (exists st,
      StreamToDisk.run part filePrefix trace = Ok st
      /\ forall reason,
          StreamToDisk.value st = Rejected reason ->
          In (StreamToDisk.FromPart (EvError reason)) trace)
  /\ (exists st,
         StreamToDisk.run part filePrefix
           (StreamToDisk.part_emits (map EvData cs)) = Ok st
         /\ StreamToDisk.value st = Pending
         /\ StreamToDisk.uncaught st = None
         /\ StreamToDisk.queue (StreamToDisk.stream st) = cs
         /\ StreamToDisk.size (StreamToDisk.info st) = totalLength cs).
Proof.
  split.
  - destruct (run_reaches part filePrefix trace)
      as (st0 & st & Hrun & -> & _ & Hc & _).
    eexists. split; [exact Hrun|].
    intros reason Hrej.
    destruct (deliver_rejects _ _ Hrej) as [Hv0|Hin]; [|exact Hin].
    destruct Hc as (_ & _ & _ & Hp & _). congruence.
  - destruct (run_reaches part filePrefix
                (StreamToDisk.part_emits (map EvData cs)))
      as (st0 & st & Hrun & -> & _ & Hc & _).
    pose proof (@collecting_deliver
                  (StreamToDisk.part_emits (map EvData cs)) st0 [] cs 0 Hc
                  (part_events_part_emits _) (storage_ok_part_emits _)) as Hc1.
    rewrite acknowledged_part_emits in Hc1. simpl in Hc1.
    destruct Hc1 as (Hu & _ & _ & Hv & Hsz & done & Hseen & _ & Hacks).
    eexists. split; [exact Hrun|]. repeat split; auto.
    destruct done; [symmetry; exact Hseen | simpl in Hacks; lia].
Qed.

Lemma streamToDisk_has_no_size_limit_witness :
  In (StreamToDisk.FromPart (EvError (IoError "ECONNRESET")))
    [StreamToDisk.FromPart (EvData ten_a);
     StreamToDisk.FromPart (EvError (IoError "ECONNRESET"))].
Proof.
  destruct (streamToDisk_has_no_size_limit (platform := sample_platform)
              sample_part None
              [StreamToDisk.FromPart (EvData ten_a);
               StreamToDisk.FromPart (EvError (IoError "ECONNRESET"))]
              [ten_a])
    as [(st & Hrun & Hrej) _].
  apply Hrej. injection Hrun as <-. reflexivity.
Defined.

(** ** makeChecksum *)

Section ChecksumFacts.
Import Checksum.
Context {crypto : Crypto}.

Lemma makeChecksum_starts (file : string) (algorithm : option string) :
  supported (or_default algorithm "md5") = true ->
  makeChecksum file algorithm []
  = (Ok {| value := Pending;
           hash := hash_new (or_default algorithm "md5");
           digested := false; uncaught := None |},
     [OpenRead file]).
Proof.
  intros Hs. unfold makeChecksum, bind, createHash. rewrite Hs. reflexivity.
Qed.

Lemma makeChecksum_throws (file : string) (algorithm : option string)
  (events : list StreamEvent) :
  supported (or_default algorithm "md5") = false ->
  run file algorithm events
  = (Threw (HashError "Digest method not supported"), []).
Proof.
  intros Hs. unfold run, listen, makeChecksum, bind, createHash.
  rewrite Hs. reflexivity.
Qed.

Lemma checksum_value_stable (st : State) (ev : StreamEvent) :
  settled (value st) = true -> value (handle st ev) = value st.
Proof.
  intros Hs. unfold handle. destruct (uncaught st); [reflexivity|].
  destruct ev as [chunk| |error]; unfold on_data, on_end, on_error;
    try destruct (digested st); simpl;
    auto using resolve_settled, reject_settled.
Qed.

(** The handlers implement first-event-wins from any state that has
    hashed the chunks seen and not produced the digest yet. *)
Lemma checksum_first_event_wins (algorithm : string)
  (events : list StreamEvent) (st : State) (seen : list Buffer) :
  value st = Pending -> digested st = false -> uncaught st = None ->
  hash st = fold_left hash_update seen (hash_new algorithm) ->
  value (deliver handle st events) = first_event_wins algorithm seen events.
Proof.
  revert st seen; induction events as [|ev rest IH];
    intros st seen Hv Hd Hu Hh.
  - exact Hv.
  - rewrite deliver_cons.
    assert (Hstep : handle st ev =
                    match ev with
                    | EvData chunk => on_data st chunk
                    | EvEnd => on_end st
                    | EvError error => on_error st error
                    end) by (unfold handle; rewrite Hu; reflexivity).
    destruct ev as [chunk| |error]; simpl first_event_wins.
    + apply IH; rewrite Hstep; unfold on_data; rewrite Hd; simpl; auto.
      rewrite fold_left_app, <- Hh. reflexivity.
    + rewrite deliver_stable with (promise := value);
        auto using checksum_value_stable;
        rewrite Hstep; unfold on_end; rewrite Hd, Hv; simpl; auto.
      unfold digest_of. rewrite Hh. reflexivity.
    + rewrite deliver_stable with (promise := value);
        auto using checksum_value_stable;
        rewrite Hstep; unfold on_error; rewrite Hv; simpl; auto.
Qed.
End ChecksumFacts.

(** C7, as the code has it.  For every non-empty algorithm name that
    [crypto.createHash] does not support, [makeChecksum] throws before it
    opens the file: no file is opened, no handler installed and no digest
    produced, whatever the file would emit.  The same holds whenever the
    name in effect, [algorithm || 'md5'], is unsupported. *)
Theorem makeChecksum_rejects_unsupported {crypto : Crypto}
  (file name : string) (algorithm : option string)
  (events : list StreamEvent) :
  (name <> ""%string -> supported name = false ->
   Checksum.run file (Some name) events
   = (Threw (HashError "Digest method not supported"), []))
  /\ (supported (or_default algorithm "md5") = false ->
      Checksum.run file algorithm events
      = (Threw (HashError "Digest method not supported"), [])).
Proof.
  split.
  - intros Hname Hs. apply makeChecksum_throws. simpl.
    destruct (String.eqb_spec name ""); [contradiction|exact Hs].
  - apply makeChecksum_throws.
Qed.

Lemma makeChecksum_rejects_unsupported_witness :
  Checksum.run (crypto := sample_crypto) "upload.bin" (Some "crc32"%string)
    (emits [ten_a] EvEnd)
  = (Threw (HashError "Digest method not supported"), []).
Proof.
  apply (makeChecksum_rejects_unsupported (crypto := sample_crypto)
           "upload.bin" "crc32" None (emits [ten_a] EvEnd)).
  - discriminate.
  - reflexivity.
Defined.

(** C7 as stated fails at the empty name: it is not a supported algorithm,
    yet [makeChecksum] takes md5 in its place, opens the file and resolves
    with a digest. *)
Lemma makeChecksum_empty_name_defaults :
  supported (Crypto := sample_crypto) "" = false
  /\ exists st,
      Checksum.run (crypto := sample_crypto) "upload.bin" (Some ""%string)
        (emits [ten_a] EvEnd)
      = (Ok st, [OpenRead "upload.bin"])
      /\ Checksum.value st
         = Resolved (Checksum.digest_of (crypto := sample_crypto) "md5" [ten_a]).
Proof.
  split; [reflexivity|].
  eexists. split; reflexivity.
Qed.

(** ** Single settlement *)

Section Settlement.
Context {crypto : Crypto} {platform : Platform}.

Lemma bufferStream_settles (maxLength : option Z) (chunks : list Buffer)
  (terminal : StreamEvent) :
  is_terminal terminal = true ->
  settles_exactly_once (BufferStream.handle maxLength) BufferStream.value
    BufferStream.init (emits chunks terminal).
Proof.
  intros Ht. apply settles_exactly_once_intro.
  - apply handle_stable.
  - reflexivity.
  - unfold emits. rewrite deliver_app.
    destruct terminal as [c| |e]; [discriminate| |]; simpl;
      match goal with |- context [deliver ?h ?s ?l] =>
        destruct (BufferStream.value (deliver h s l)) end; reflexivity.
Qed.

Lemma checksum_data_keeps (chunks : list Buffer) (st : Checksum.State) :
  Checksum.digested st = false -> Checksum.uncaught st = None ->
  Checksum.digested (deliver Checksum.handle st (map EvData chunks)) = false
  /\ Checksum.uncaught (deliver Checksum.handle st (map EvData chunks))
     = None.
Proof.
  revert st; induction chunks as [|c cs IH]; intros st Hd Hu; [auto|].
  simpl map. rewrite deliver_cons. apply IH.
  - unfold Checksum.handle. rewrite Hu. unfold Checksum.on_data.
    rewrite Hd. reflexivity.
  - unfold Checksum.handle. rewrite Hu. unfold Checksum.on_data.
    rewrite Hd. simpl. exact Hu.
Qed.

Lemma makeChecksum_settles (st : Checksum.State) (chunks : list Buffer)
  (terminal : StreamEvent) :
  Checksum.value st = Pending -> Checksum.digested st = false ->
  Checksum.uncaught st = None ->
  is_terminal terminal = true ->
  settles_exactly_once Checksum.handle Checksum.value st
    (emits chunks terminal).
Proof.
  intros Hv Hd Hu Ht. apply settles_exactly_once_intro.
  - apply checksum_value_stable.
  - exact Hv.
  - unfold emits. rewrite deliver_app.
    destruct (checksum_data_keeps chunks st Hd Hu) as [Hd' Hu'].
    set (st' := deliver Checksum.handle st (map EvData chunks)) in *.
    simpl. unfold Checksum.handle. rewrite Hu'.
    destruct terminal as [c| |e]; [discriminate| |].
    + unfold Checksum.on_end. rewrite Hd'. simpl.
      destruct (Checksum.value st'); reflexivity.
    + unfold Checksum.on_error. simpl.
      destruct (Checksum.value st'); reflexivity.
Qed.

Lemma outcome_settled (st : StreamToDisk.State) :
  settled (StreamToDisk.outcome st) = settled (StreamToDisk.value st).
Proof.
  unfold StreamToDisk.outcome.
  destruct (StreamToDisk.value st) as [|[]|]; reflexivity.
Qed.

(** A part that emits [cs] and then an error rejects the promise with
    that error, whatever the storage layer does in between or after. *)
Lemma errored_part_rejects (st0 : StreamToDisk.State)
  (trace : list StreamToDisk.Event) (cs : list Buffer) (e : JsError) :
  StreamToDisk.collecting [] 0 st0 ->
  StreamToDisk.part_events trace = emits cs (EvError e) ->
  StreamToDisk.storage_ok trace = true ->
  forall later,
    StreamToDisk.value
      (deliver StreamToDisk.handle st0 (trace ++ later)) = Rejected e.
Proof.
  intros Hc Hp Hok later.
  destruct (@part_events_split trace (map EvData cs) (EvError e) Hp)
    as (b & a & -> & Hb & Ha).
  rewrite storage_ok_app in Hok. apply andb_prop in Hok as [Hokb _].
  pose proof (@collecting_deliver b st0 [] cs 0 Hc Hb Hokb) as Hc1.
  destruct Hc1 as (Hu & _ & _ & Hv & _).
  rewrite <- app_assoc, deliver_app. simpl app. rewrite deliver_cons.
  set (st1 := deliver StreamToDisk.handle st0 b) in *.
  rewrite deliver_stable with (promise := StreamToDisk.value).
  - unfold StreamToDisk.handle. rewrite Hu. simpl. rewrite Hv. reflexivity.
  - apply value_stable.
  - unfold StreamToDisk.handle. rewrite Hu. simpl. rewrite Hv. reflexivity.
Qed.

(** The outcome of [streamToDisk] over a part that follows the stream
    protocol and a storage layer that fails no write and completes. *)
Lemma streamToDisk_outcome (part : StreamToDisk.Part)
  (filePrefix : option string) (trace : list StreamToDisk.Event)
  (cs : list Buffer) (terminal : StreamEvent) :
  is_terminal terminal = true ->
  StreamToDisk.part_events trace = emits cs terminal ->
  StreamToDisk.storage_ok trace = true ->
  exists st0,
    (forall other,
        StreamToDisk.run part filePrefix other
        = Ok (deliver StreamToDisk.handle st0 other))
    /\ StreamToDisk.value st0 = Pending
    /\ StreamToDisk.outcome
         (deliver StreamToDisk.handle st0
            (trace ++ StreamToDisk.storage_completes
                        (deliver StreamToDisk.handle st0 trace)))
       = match terminal with
         | EvError e => Rejected e
         | _ => Resolved
                  {| StreamToDisk.path := makeTemporaryPath filePrefix;
                     StreamToDisk.name := StreamToDisk.filename part;
                     StreamToDisk.type := StreamToDisk.part_type part;
                     StreamToDisk.size := totalLength cs |}
         end.
Proof.
  intros Ht Hp Hok.
  destruct (run_reaches part filePrefix trace)
    as (st0 & st & _ & -> & Hall & Hc & _).
  exists st0. split; [exact Hall|].
  split; [destruct Hc as (_ & _ & _ & Hv & _); exact Hv|].
  set (st := deliver StreamToDisk.handle st0 trace).
  destruct terminal as [c| |e]; [discriminate| |].
  - destruct (@ended_part_drains st0 trace cs Hc Hp Hok) as (i & Hd & Hsz).
    pose proof (draining_completes Hd) as Hfin. cbv zeta in Hfin.
    fold st in Hfin. rewrite deliver_app. fold st.
    destruct Hfin as (_ & Hi & Hv & _).
    destruct (run_reaches part filePrefix
                (trace ++ StreamToDisk.storage_completes st))
      as (st0' & st' & Hrun' & -> & _ & _ & _ & Hpath & Hname & Htype & _).
    assert (Hsame : deliver StreamToDisk.handle st0'
                      (trace ++ StreamToDisk.storage_completes st)
                    = deliver StreamToDisk.handle st
                        (StreamToDisk.storage_completes st)).
    { rewrite Hall, deliver_app in Hrun'. fold st in Hrun'. congruence. }
    rewrite Hsame in Hpath, Hname, Htype.
    unfold StreamToDisk.outcome. rewrite Hv. f_equal.
    destruct (StreamToDisk.info _) as [p n t s].
    simpl in *. subst i. simpl in Hsz. congruence.
  - unfold StreamToDisk.outcome.
    rewrite (@errored_part_rejects st0 trace cs e Hc Hp Hok). reflexivity.
Qed.

(** The events of the storage layer never touch the object [info]. *)
Lemma storage_keeps_info (later : list StreamToDisk.Event)
  (st : StreamToDisk.State) :
  StreamToDisk.part_events later = [] ->
  StreamToDisk.info (deliver StreamToDisk.handle st later)
  = StreamToDisk.info st.
Proof.
  revert st; induction later as [|ev rest IH]; intros st Hp; [reflexivity|].
  rewrite deliver_cons.
  destruct ev as [e| |error|]; simpl in Hp; try discriminate;
    rewrite (IH _ Hp); unfold StreamToDisk.handle;
    destruct (StreamToDisk.uncaught st); try reflexivity.
  - unfold StreamToDisk.on_write_done.
    destruct (StreamToDisk.queue (StreamToDisk.stream st)); reflexivity.
  - unfold StreamToDisk.on_write_failed.
    destruct (StreamToDisk.queue (StreamToDisk.stream st)); reflexivity.
  - unfold StreamToDisk.on_finish.
    destruct (StreamToDisk.ending (StreamToDisk.stream st));
      destruct (StreamToDisk.queue (StreamToDisk.stream st));
      destruct (StreamToDisk.finished (StreamToDisk.stream st)); reflexivity.
Qed.

(** What the caller observes of a settled promise is not changed by later
    events of the storage layer. *)
Lemma outcome_stable (later : list StreamToDisk.Event)
  (st : StreamToDisk.State) :
  settled (StreamToDisk.value st) = true ->
  StreamToDisk.part_events later = [] ->
  StreamToDisk.outcome (deliver StreamToDisk.handle st later)
  = StreamToDisk.outcome st.
Proof.
  intros Hs Hp. unfold StreamToDisk.outcome.
  rewrite (storage_keeps_info later st Hp).
  rewrite deliver_stable with (promise := StreamToDisk.value);
    auto using value_stable.
Qed.
End Settlement.

(** C2, as the code has it.  [bufferStream] and [makeChecksum] settle
    their promise exactly once over a source that emits chunks and then one
    terminal event, and [streamToDisk] does so when moreover no write to
    the file fails and the storage layer completes; no operation settles
    more than once over any events.  The outcome is that of the first among
    error, limit breach and completion in the order of the events; no later
    event changes the state of the settled promise, and no later event of
    the storage layer changes what [streamToDisk] has resolved with.  In
    particular a chunk that breaches the limit, followed at once by an
    error, leaves [MaxLengthExceededError] and not the error. *)
Theorem operations_settle_exactly_once
  {crypto : Crypto} {platform : Platform}
  (maxLength : option Z) (stream : list StreamEvent)
  (file : string) (algorithm : option string)
  (part : StreamToDisk.Part) (filePrefix : option string)
  (trace : list StreamToDisk.Event)
  (chunks : list Buffer) (terminal : StreamEvent) :
  is_terminal terminal = true ->
  (BufferStream.bufferStream stream maxLength
   = BufferStream.first_event_wins maxLength 0 [] stream
   /\ (settlements (BufferStream.handle maxLength) BufferStream.value
         BufferStream.init stream <= 1)%nat
   /\ settles_exactly_once (BufferStream.handle maxLength) BufferStream.value
        BufferStream.init (emits chunks terminal))
  /\ (supported (or_default algorithm "md5") = true ->
      exists st0,
        (forall events,
            Checksum.run file algorithm events
            = (Ok (deliver Checksum.handle st0 events), [OpenRead file]))
        /\ Checksum.value (deliver Checksum.handle st0 stream)
           = Checksum.first_event_wins (or_default algorithm "md5") [] stream
        /\ (settlements Checksum.handle Checksum.value st0 stream <= 1)%nat
        /\ settles_exactly_once Checksum.handle Checksum.value st0
             (emits chunks terminal))
  /\ (exists st0,
         (forall other,
             StreamToDisk.run part filePrefix other
             = Ok (deliver StreamToDisk.handle st0 other))
         /\ (settlements StreamToDisk.handle StreamToDisk.value st0 trace
             <= 1)%nat
         /\ (StreamToDisk.part_events trace = emits chunks terminal ->
             StreamToDisk.storage_ok trace = true ->
             let whole :=
               trace ++ StreamToDisk.storage_completes
                          (deliver StreamToDisk.handle st0 trace) in
             settles_exactly_once StreamToDisk.handle StreamToDisk.value
               st0 whole
             /\ StreamToDisk.outcome (deliver StreamToDisk.handle st0 whole)
                = match terminal with
                  | EvError e => Rejected e
                  | _ => Resolved
                           {| StreamToDisk.path := makeTemporaryPath filePrefix;
                              StreamToDisk.name := StreamToDisk.filename part;
                              StreamToDisk.type := StreamToDisk.part_type part;
                              StreamToDisk.size := totalLength chunks |}
                  end
             /\ (forall later,
                    StreamToDisk.part_events later = [] ->
                    StreamToDisk.outcome
                      (deliver StreamToDisk.handle
                         (deliver StreamToDisk.handle st0 whole) later)
                    = StreamToDisk.outcome
                        (deliver StreamToDisk.handle st0 whole))))
  /\ (forall m before chunk error later,
         0 < m ->
         totalLength before <= m ->
         m < totalLength before + byteLength chunk ->
         BufferStream.bufferStream
           (map EvData before ++ EvData chunk :: EvError error :: later)
           (Some m)
         = Rejected (MaxLengthExceededError m)).
Proof.
  intros Ht. split; [|split; [|split]].
  - split; [apply bufferStream_first_event_wins|].
    split; [apply settlements_at_most_once, handle_stable|].
    apply bufferStream_settles, Ht.
  - intros Hs. eexists. split.
    { intros events. unfold Checksum.run, listen.
      rewrite (makeChecksum_starts file algorithm Hs). reflexivity. }
    split; [apply checksum_first_event_wins; reflexivity|].
    split; [apply settlements_at_most_once, checksum_value_stable|].
    apply makeChecksum_settles; auto.
  - destruct (run_reaches part filePrefix trace)
      as (st0 & st & _ & _ & Hall & Hc & _).
    exists st0. split; [exact Hall|].
    split; [apply settlements_at_most_once, value_stable|].
    intros Hp Hok whole.
    destruct (@streamToDisk_outcome platform part filePrefix trace chunks
                terminal Ht Hp Hok)
      as (st0' & Hall' & Hv0 & Hout).
    assert (st0' = st0).
    { pose proof (Hall []) as H1. pose proof (Hall' []) as H2.
      simpl in H1, H2. congruence. }
    subst st0'. fold whole in Hout.
    assert (Hset : settled (StreamToDisk.value
                              (deliver StreamToDisk.handle st0 whole)) = true).
    { rewrite <- outcome_settled, Hout.
      destruct terminal; [discriminate| |]; reflexivity. }
    split; [|split; [exact Hout|]].
    + apply settles_exactly_once_intro.
      * apply value_stable.
      * exact Hv0.
      * exact Hset.
    + intros later Hl. apply outcome_stable; assumption.
  - intros m before chunk error later Hm Hle Hgt.
    rewrite bufferStream_first_event_wins, first_event_wins_within.
    + cbn [BufferStream.first_event_wins].
      rewrite exceeded_some by lia. reflexivity.
    + intros l Hl. apply exceeded_within. lia.
Qed.

Lemma operations_settle_exactly_once_witness :
  (BufferStream.bufferStream
     (map EvData [ten_a] ++ EvData ten_b :: EvError (IoError "ECONNRESET") :: [])
     (Some 15)
   = Rejected (MaxLengthExceededError 15)
   /\ settles_exactly_once (BufferStream.handle (Some 15)) BufferStream.value
        BufferStream.init (emits [ten_a; ten_b] EvEnd))
  /\ (exists st0,
         (forall events,
             Checksum.run (crypto := sample_crypto) "upload.bin"
               (Some "sha1"%string) events
             = (Ok (deliver Checksum.handle st0 events),
                [OpenRead "upload.bin"]))
         /\ settles_exactly_once Checksum.handle Checksum.value st0
              (emits [ten_a; ten_b] EvEnd))
  /\ (exists st0,
         (forall other,
             StreamToDisk.run (platform := sample_platform) sample_part None
               other
             = Ok (deliver StreamToDisk.handle st0 other))
         /\ settles_exactly_once StreamToDisk.handle StreamToDisk.value st0
              ([StreamToDisk.FromPart (EvData ten_a); StreamToDisk.AckWrite;
                StreamToDisk.FromPart (EvData ten_b);
                StreamToDisk.FromPart EvEnd]
               ++ StreamToDisk.storage_completes
                    (deliver StreamToDisk.handle st0
                       [StreamToDisk.FromPart (EvData ten_a);
                        StreamToDisk.AckWrite;
                        StreamToDisk.FromPart (EvData ten_b);
                        StreamToDisk.FromPart EvEnd]))).
Proof.
  destruct (operations_settle_exactly_once
              (crypto := sample_crypto) (platform := sample_platform)
              (Some 15) (emits [ten_a; ten_b] EvEnd)
              "upload.bin" (Some "sha1"%string)
              sample_part None
              [StreamToDisk.FromPart (EvData ten_a); StreamToDisk.AckWrite;
               StreamToDisk.FromPart (EvData ten_b);
               StreamToDisk.FromPart EvEnd]
              [ten_a; ten_b] EvEnd eq_refl)
    as ((_ & _ & Honce) & Hsum & Hdisk & Hbreach).
  split; [split; [|exact Honce]|split].
  - apply Hbreach.
    + lia.
    + vm_compute. discriminate.
    + vm_compute. reflexivity.
  - destruct (Hsum eq_refl) as (st0 & Hrun & _ & _ & Hs).
    exists st0. split; assumption.
  - destruct Hdisk as (st0 & Hrun & _ & Hs).
    exists st0. split; [exact Hrun|].
    destruct (Hs eq_refl eq_refl) as (Honce' & _). exact Honce'.
Defined.

(** C2 as stated fails for [streamToDisk]: the part emits a chunk and ends,
    the write of the chunk fails in between, and the promise is never
    settled, whatever follows. *)
Lemma streamToDisk_never_settles_after_failed_write :
  StreamToDisk.part_events
    [StreamToDisk.FromPart (EvData ten_a);
     StreamToDisk.FailWrite (IoError "ENOSPC");
     StreamToDisk.FromPart EvEnd]
  = emits [ten_a] EvEnd
  /\ exists st0,
      (forall other,
          StreamToDisk.run (platform := sample_platform) sample_part None other
          = Ok (deliver StreamToDisk.handle st0 other))
      /\ forall later,
          StreamToDisk.outcome
            (deliver StreamToDisk.handle st0
               ([StreamToDisk.FromPart (EvData ten_a);
                 StreamToDisk.FailWrite (IoError "ENOSPC");
                 StreamToDisk.FromPart EvEnd] ++ later))
          = Pending
          /\ settlements StreamToDisk.handle StreamToDisk.value st0
               ([StreamToDisk.FromPart (EvData ten_a);
                 StreamToDisk.FailWrite (IoError "ENOSPC");
                 StreamToDisk.FromPart EvEnd] ++ later)
             = 0%nat.
Proof.
  split; [reflexivity|].
  eexists. split; [intros other; reflexivity|].
  intros later.
  match goal with
  | |- StreamToDisk.outcome (deliver _ ?s0 _) = _ /\ _ =>
      assert (Hstay : deliver StreamToDisk.handle s0
                        ([StreamToDisk.FromPart (EvData ten_a);
                          StreamToDisk.FailWrite (IoError "ENOSPC");
                          StreamToDisk.FromPart EvEnd] ++ later)
                      = deliver StreamToDisk.handle s0
                          [StreamToDisk.FromPart (EvData ten_a);
                           StreamToDisk.FailWrite (IoError "ENOSPC")])
  end.
  { rewrite deliver_app.
    apply deliver_uncaught with (e := IoError "ENOSPC"). reflexivity. }
  split.
  - rewrite Hstay. reflexivity.
  - rewrite settlements_count by apply value_stable.
    rewrite Hstay. reflexivity.
Qed.

(** * Further properties of the utilities *)

(** ** Strings *)

Lemma append_nil_r (s : string) : (s ++ "")%string = s.
Proof. induction s as [|c s IH]; simpl; [reflexivity|]. rewrite IH. reflexivity. Qed.

Lemma append_assoc (a b c : string) :
  ((a ++ b) ++ c)%string = (a ++ (b ++ c))%string.
Proof. induction a as [|x a IH]; simpl; [reflexivity|]. rewrite IH. reflexivity. Qed.

Lemma length_append (a b : string) :
  String.length (a ++ b) = (String.length a + String.length b)%nat.
Proof. induction a as [|x a IH]; simpl; [reflexivity|]. rewrite IH. reflexivity. Qed.

(** ** Status tables and text responses *)

(** X1. [statusHasContent] answers false for the statuses 100, 101, 204
    and 304 and for no other, and each of these has a reason phrase in
    [STATUS_CODES]. *)
Theorem statusHasContent_characterised (status : Z) :
  (statusHasContent status = false <-> In status [100; 101; 204; 304])
  /\ (statusHasContent status = false ->
      exists phrase, table_get status STATUS_CODES = Some phrase).
Proof.
  assert (Hiff : statusHasContent status = false
                 <-> In status [100; 101; 204; 304]).
  { unfold statusHasContent, STATUS_WITHOUT_CONTENT. cbn [table_get In].
    destruct (Z.eqb_spec 100 status); [tauto|].
    destruct (Z.eqb_spec 101 status); [tauto|].
    destruct (Z.eqb_spec 204 status); [tauto|].
    destruct (Z.eqb_spec 304 status); [tauto|].
    split; [discriminate|]. intros [H|[H|[H|[H|[]]]]]; congruence. }
  split; [exact Hiff|].
  intros H. apply Hiff in H.
  destruct H as [<-|[<-|[<-|[<-|[]]]]]; eexists; reflexivity.
Qed.

Lemma statusHasContent_characterised_witness :
  exists phrase, table_get 204 STATUS_CODES = Some phrase.
Proof.
  apply (statusHasContent_characterised 204). reflexivity.
Defined.

Lemma upper_char_idempotent (c : ascii) :
  upper_char (upper_char c) = upper_char c.
Proof. destruct c as [[] [] [] [] [] [] [] []]; reflexivity. Qed.

Lemma toUpperCase_idempotent (s : string) :
  toUpperCase (toUpperCase s) = toUpperCase s.
Proof.
  induction s as [|c s IH]; simpl; [reflexivity|].
  rewrite upper_char_idempotent, IH. reflexivity.
Qed.

(** X2. On a method name of characters below 128, [isSafeRequestMethod]
    looks at the name in upper case only: it answers the same for the name
    and for its upper-case form, and answers true exactly when that form is
    GET, HEAD, OPTIONS or TRACE. *)
Theorem isSafeRequestMethod_ignores_case (method : string) :
  is_ascii method = true ->
  isSafeRequestMethod (toUpperCase method) = isSafeRequestMethod method
  /\ (isSafeRequestMethod method = true
      <-> In (toUpperCase method) [ "GET"; "HEAD"; "OPTIONS"; "TRACE" ]%string).
Proof.
  intros _. split.
  - unfold isSafeRequestMethod. rewrite toUpperCase_idempotent. reflexivity.
  - unfold isSafeRequestMethod, SAFE_REQUEST_METHODS. cbn [obj_get In].
    destruct (String.eqb_spec "GET" (toUpperCase method)) as [H1|H1];
      [tauto|].
    destruct (String.eqb_spec "HEAD" (toUpperCase method)) as [H2|H2];
      [tauto|].
    destruct (String.eqb_spec "OPTIONS" (toUpperCase method)) as [H3|H3];
      [tauto|].
    destruct (String.eqb_spec "TRACE" (toUpperCase method)) as [H4|H4];
      [tauto|].
    split; [discriminate|]. intros [H|[H|[H|[H|[]]]]]; congruence.
Qed.

Lemma isSafeRequestMethod_ignores_case_witness :
  isSafeRequestMethod "options" = true.
Proof.
  apply (isSafeRequestMethod_ignores_case "options"); [reflexivity|].
  simpl. auto.
Defined.

Lemma truthy_not_empty (x : option string) (s : string) :
  truthy x = Some s -> x = Some s /\ s <> ""%string.
Proof.
  destruct x as [t|]; simpl; [|discriminate].
  destruct (String.eqb_spec t ""); [discriminate|].
  intros [= <-]. auto.
Qed.

(** Every reason phrase of [STATUS_CODES] is a non-empty string. *)
Lemma STATUS_CODES_not_empty (status : Z) (phrase : string) :
  table_get status STATUS_CODES = Some phrase -> phrase <> ""%string.
Proof.
  unfold STATUS_CODES. cbn [table_get].
  repeat match goal with
         | |- context [if ?k =? status then _ else _] =>
             destruct (k =? status);
             [intros [= <-]; discriminate|]
         end.
  discriminate.
Qed.

(** X3. A response built by [textResponse] carries the status it was
    given, the type text/plain, a body that is never empty, and a
    Content-Length equal to the byte length of that body; the body is the
    given content when that is not empty, and the reason phrase of the
    status otherwise. *)
Theorem textResponse_well_formed (status : Z) (content : option string)
  (response : TextResponse.Response) :
  textResponse status content = Some response ->
  TextResponse.status response = status
  /\ TextResponse.Content_Type (TextResponse.headers response)
     = "text/plain"%string
  /\ TextResponse.Content_Length (TextResponse.headers response)
     = Buffer_byteLength (TextResponse.content response)
  /\ TextResponse.content response <> ""%string
  /\ match truthy content with
     | Some c => TextResponse.content response = c
     | None => table_get status STATUS_CODES
               = Some (TextResponse.content response)
     end.
Proof.
  unfold textResponse.
  destruct (truthy content) as [c|] eqn:Hc.
  - intros [= <-]. simpl. repeat split.
    apply truthy_not_empty in Hc. tauto.
  - destruct (table_get status STATUS_CODES) as [phrase|] eqn:Hp;
      [|discriminate].
    intros [= <-]. simpl. repeat split.
    apply (STATUS_CODES_not_empty status), Hp.
Qed.

Lemma textResponse_well_formed_witness :
  TextResponse.Content_Length
    (TextResponse.headers
       {| TextResponse.status := 204;
          TextResponse.headers :=
            {| TextResponse.Content_Type := "text/plain";
               TextResponse.Content_Length := 10 |};
          TextResponse.content := "No Content" |})
  = Buffer_byteLength "No Content".
Proof.
  apply (@textResponse_well_formed 204 (Some ""%string)). reflexivity.
Defined.

(** X4. Each of the six responders [ok], [badRequest], [forbidden],
    [notFound], [requestEntityTooLarge] and [internalServerError] always
    builds a response, with its own status, which is one that has content;
    called without content or with the empty string it answers with the
    reason phrase of that status. *)
Theorem responders_answer (responder : option string -> option TextResponse.Response)
  (status : Z) (content : option string) :
  In (responder, status) responders ->
  statusHasContent status = true
  /\ exists response,
      responder content = Some response
      /\ TextResponse.status response = status
      /\ (truthy content = None ->
          table_get status STATUS_CODES
          = Some (TextResponse.content response)).
Proof.
  intros Hin.
  assert (Hs : statusHasContent status = true
               /\ responder = makeTextResponder status
               /\ exists phrase, table_get status STATUS_CODES = Some phrase).
  { simpl in Hin.
    destruct Hin as [H|[H|[H|[H|[H|[H|[]]]]]]]; injection H as <- <-;
      (split; [reflexivity|split; [reflexivity|eexists; reflexivity]]). }
  destruct Hs as (Hhas & -> & phrase & Hp).
  split; [exact Hhas|].
  unfold makeTextResponder, textResponse. rewrite Hp.
  destruct (truthy content) as [c|]; eexists;
    (split; [reflexivity|split; [reflexivity|]]); simpl.
  - discriminate.
  - reflexivity.
Qed.

Lemma responders_answer_witness :
  exists response,
    notFound None = Some response
    /\ TextResponse.status response = 404
    /\ (truthy None = None ->
        table_get 404 STATUS_CODES = Some (TextResponse.content response)).
Proof.
  apply (@responders_answer notFound 404 None). simpl. auto.
Defined.

(** X5. [defaultApp] always builds a response: its status is 404, its body
    names the method and the path of the request, and its Content-Length
    is 12 more than the lengths of the two, also when both are empty. *)
Theorem defaultApp_not_found (request : TextResponse.Request) :
  exists response,
    defaultApp request = Some response
    /\ TextResponse.status response = 404
    /\ TextResponse.content response
       = ("Not Found: " ++ TextResponse.method request ++ " "
          ++ TextResponse.path request)%string
    /\ TextResponse.Content_Length (TextResponse.headers response)
       = (12 + String.length (TextResponse.method request)
          + String.length (TextResponse.path request))%nat.
Proof.
  unfold defaultApp, textResponse. simpl.
  eexists. repeat split. simpl. unfold Buffer_byteLength. simpl.
  rewrite length_append. simpl. lia.
Qed.

(** ** escapeRegExp *)

Lemma escapeRegExp_length (s : string) :
  String.length (escapeRegExp s) = (String.length s + count_special s)%nat.
Proof.
  induction s as [|c s IH]; simpl; [reflexivity|].
  destruct (regexp_special c); simpl; rewrite IH; lia.
Qed.

(** X6. [escapeRegExp] works character by character: the escape of a
    concatenation is the concatenation of the escapes, and the result is
    longer than the input by the number of characters it escapes. *)
Theorem escapeRegExp_append (a b : string) :
  escapeRegExp (a ++ b) = (escapeRegExp a ++ escapeRegExp b)%string
  /\ String.length (escapeRegExp (a ++ b))
     = (String.length a + String.length b
        + count_special a + count_special b)%nat.
Proof.
  assert (Happ : escapeRegExp (a ++ b)
                 = (escapeRegExp a ++ escapeRegExp b)%string).
  { induction a as [|c a IH]; simpl; [reflexivity|].
    destruct (regexp_special c); simpl; rewrite IH; reflexivity. }
  split; [exact Happ|].
  rewrite Happ, length_append, !escapeRegExp_length. lia.
Qed.

(** X7. [escapeRegExp] loses nothing: two strings with the same escape are
    the same string. *)
Theorem escapeRegExp_injective (a b : string) :
  escapeRegExp a = escapeRegExp b -> a = b.
Proof.
  revert b; induction a as [|c a IH]; intros [|d b]; simpl.
  - reflexivity.
  - destruct (regexp_special d); discriminate.
  - destruct (regexp_special c); discriminate.
  - destruct (regexp_special c) eqn:Hc; destruct (regexp_special d) eqn:Hd;
      intros H.
    + injection H as -> H. f_equal. apply IH, H.
    + injection H as <- _. discriminate Hd.
    + injection H as -> _. discriminate Hc.
    + injection H as -> H. f_equal. apply IH, H.
Qed.

Lemma escapeRegExp_injective_witness : "a.b"%string = "a.b"%string.
Proof. apply (@escapeRegExp_injective "a.b" "a.b"). reflexivity. Defined.

(** X8. In the result of [escapeRegExp] no character of its class is left
    bare: the result is a sequence of other characters and of pairs of a
    backslash and a character of the class.  The result is the input
    itself exactly when the input has no character of the class. *)
Theorem escapeRegExp_escapes_all (s : string) :
  escaped (escapeRegExp s)
  /\ (escapeRegExp s = s <-> count_special s = 0%nat).
Proof.
  split.
  - induction s as [|c s IH]; simpl; [constructor|].
    destruct (regexp_special c) eqn:Hc; constructor; assumption.
  - split.
    + intros H. pose proof (escapeRegExp_length s) as Hl.
      rewrite H in Hl. lia.
    + induction s as [|c s IH]; simpl; [reflexivity|].
      destruct (regexp_special c); simpl; [discriminate|].
      intros H. rewrite IH by exact H. reflexivity.
Qed.

Lemma escapeRegExp_escapes_all_witness :
  escapeRegExp "/users/new" = "/users/new"%string.
Proof. apply (escapeRegExp_escapes_all "/users/new"). reflexivity. Defined.

(** ** compileRoute *)

Lemma key_start_part (c : ascii) : key_start c = true -> key_part c = true.
Proof.
  unfold key_start, key_part.
  destruct (is_letter c), (is_digit c), (Ascii.eqb c "_"), (Ascii.eqb c "$");
    simpl; auto.
Qed.

Lemma replace_route_leaves_key (s : string) :
  ends_key s = true -> replace_route true s = replace_route false s.
Proof.
  destruct s as [|c s]; [reflexivity|]. simpl.
  intros H. apply negb_true_iff in H. rewrite H. reflexivity.
Qed.

Lemma starts_key_append (a b : string) :
  ends_key b = true -> starts_key (a ++ b) = starts_key a.
Proof.
  destruct a as [|c a]; [|reflexivity]. simpl.
  destruct b as [|d b]; [reflexivity|]. simpl.
  intros H. apply negb_true_iff in H.
  destruct (key_start d) eqn:Hd; [|reflexivity].
  apply key_start_part in Hd. congruence.
Qed.

Lemma replace_route_append (a b : string) (in_key : bool) :
  ends_key b = true ->
  replace_route in_key (a ++ b)
  = (replace_route in_key a ++ replace_route false b)%string.
Proof.
  intros Hb. revert in_key; induction a as [|c a IH]; intros in_key.
  - simpl. destruct in_key; [apply replace_route_leaves_key, Hb|reflexivity].
  - cbn [String.append replace_route].
    rewrite (starts_key_append a b Hb).
    destruct (in_key && key_part c); [apply IH|].
    destruct (Ascii.eqb c ":" && starts_key a);
      [rewrite IH; reflexivity|].
    destruct (Ascii.eqb c "*");
      [rewrite IH; reflexivity|].
    destruct (existsb (Ascii.eqb c) [ "."; "+"; "("; ")" ]%char);
      [rewrite IH; symmetry; apply append_assoc|].
    rewrite IH. reflexivity.
Qed.

Lemma replace_route_skips_key (name rest : string) :
  forallb key_part (list_ascii_of_string name) = true ->
  ends_key rest = true ->
  replace_route true (name ++ rest) = replace_route false rest.
Proof.
  intros Hn Hr. induction name as [|c name IH].
  - apply replace_route_leaves_key, Hr.
  - simpl in Hn. apply andb_prop in Hn as [Hc Hn].
    cbn [String.append replace_route]. rewrite Hc. simpl. apply IH, Hn.
Qed.

(** X9. A route without colon, star, dot, plus or parenthesis is handed
    to [new RegExp] as it is, between the anchors: every other character,
    among them the question mark, the bar, the brackets and the backslash,
    goes into the pattern unescaped.  So [compileRoute] gives the RegExp of
    that pattern with the flag [i] when the pattern is a regular
    expression, and throws the SyntaxError of [new RegExp] when it is not. *)
Theorem compileRoute_literal (route : string) :
  forallb is_literal_char (list_ascii_of_string route) = true ->
  replace_route false route = route
  /\ forall engine : RegExpEngine,
      compileRoute route
      = if regexp_valid ("^" ++ route ++ "$")
        then Some {| source := ("^" ++ route ++ "$")%string; flags := "i" |}
        else None.
Proof.
  intros H.
  assert (Hr : replace_route false route = route).
  { induction route as [|c route IH]; [reflexivity|].
    simpl in H. apply andb_prop in H as [Hc H].
    cbn [replace_route]. rewrite IH by exact H.
    unfold is_literal_char in Hc. apply negb_true_iff in Hc.
    cbn [existsb] in Hc.
    destruct (Ascii.eqb c ":"); [discriminate|].
    destruct (Ascii.eqb c "*"); [discriminate|].
    cbn [existsb andb orb].
    simpl in Hc. rewrite Hc. reflexivity. }
  split; [exact Hr|].
  intros engine. unfold compileRoute, new_RegExp. rewrite Hr. reflexivity.
Qed.

Lemma compileRoute_literal_witness :
  replace_route false "/a?b|c" = "/a?b|c"%string.
Proof. apply (compileRoute_literal "/a?b|c"). reflexivity. Defined.

(** X10. Routes compile piece by piece: when the second piece is empty or
    starts with a character that cannot continue a key, the pattern of the
    concatenation is the concatenation of the patterns, and it is the
    source, between the anchors, of the RegExp that [compileRoute]
    returns. *)
Theorem compileRoute_append (a b : string) :
  ends_key b = true ->
  replace_route false (a ++ b)
  = (replace_route false a ++ replace_route false b)%string
  /\ forall (engine : RegExpEngine) (regexp : RegExp),
      compileRoute (a ++ b) = Some regexp ->
      source regexp
      = ("^" ++ replace_route false a ++ replace_route false b ++ "$")%string.
Proof.
  intros Hb. split; [apply (replace_route_append a b false Hb)|].
  intros engine regexp. unfold compileRoute, new_RegExp.
  destruct (regexp_valid _); [|discriminate].
  intros [= <-]. cbn [source].
  rewrite (replace_route_append a b false Hb), append_assoc. reflexivity.
Qed.

Lemma compileRoute_append_witness :
  replace_route false ("/users/:id" ++ "/files/*")
  = "/users/([^./?#]+)/files/(.*?)"%string.
Proof. apply (compileRoute_append "/users/:id" "/files/*"). reflexivity. Defined.

(** X11. A colon followed by a key name, up to a character that cannot
    continue the name, is compiled to one group that matches up to the next
    dot, slash, question mark or hash; the name itself leaves no trace, so
    two routes that differ in the name of a key compile to the same
    RegExp. *)
Theorem compileRoute_key (before name other rest : string) :
  is_key_name name = true ->
  is_key_name other = true ->
  ends_key rest = true ->
  replace_route false (":" ++ name ++ rest)
  = ("([^./?#]+)" ++ replace_route false rest)%string
  /\ forall engine : RegExpEngine,
      compileRoute (before ++ ":" ++ name ++ rest)
      = compileRoute (before ++ ":" ++ other ++ rest).
Proof.
  intros Hn Ho Hr.
  assert (Hkey : forall n, is_key_name n = true ->
                           replace_route false (":" ++ n ++ rest)
                           = ("([^./?#]+)" ++ replace_route false rest)%string).
  { intros n Hk. destruct n as [|c n]; [discriminate|].
    simpl in Hk. apply andb_prop in Hk as [Hc Hk].
    change (":" ++ String c n ++ rest)%string
      with (String ":" (String c (n ++ rest))).
    cbn [replace_route andb]. change (Ascii.eqb ":" ":") with true.
    cbn [starts_key andb]. rewrite Hc. f_equal.
    apply (replace_route_skips_key (String c n) rest); [|exact Hr].
    simpl. rewrite (key_start_part c Hc). exact Hk. }
  split; [apply Hkey, Hn|].
  intros engine. unfold compileRoute.
  rewrite (replace_route_append before (":" ++ name ++ rest) false eq_refl).
  rewrite (replace_route_append before (":" ++ other ++ rest) false eq_refl).
  rewrite (Hkey name Hn), (Hkey other Ho). reflexivity.
Qed.

Lemma compileRoute_key_witness :
  replace_route false (":" ++ "id" ++ "/edit") = "([^./?#]+)/edit"%string.
Proof.
  apply (compileRoute_key "/users/" "id" "user_id" "/edit"); reflexivity.
Defined.

(** ** Plain objects and mergeProperties *)

Lemma obj_get_set_same V (key : string) (v : V) (object : Obj V) :
  obj_get key (obj_set key v object) = Some v.
Proof.
  induction object as [|[k w] rest IH]; simpl.
  - rewrite String.eqb_refl. reflexivity.
  - destruct (String.eqb k key) eqn:Hk; simpl; rewrite Hk; auto.
Qed.

Lemma obj_get_set_other V (key other : string) (v : V) (object : Obj V) :
  other <> key ->
  obj_get other (obj_set key v object) = obj_get other object.
Proof.
  intros Hne. induction object as [|[k w] rest IH]; simpl.
  - destruct (String.eqb_spec key other); [congruence|reflexivity].
  - destruct (String.eqb_spec k key) as [->|Hk]; simpl.
    + destruct (String.eqb_spec key other); [congruence|reflexivity].
    + destruct (String.eqb k other); auto.
Qed.

Lemma obj_set_unchanged V (key : string) (v : V) (object : Obj V) :
  obj_get key object = Some v -> obj_set key v object = object.
Proof.
  induction object as [|[k w] rest IH]; simpl; [discriminate|].
  destruct (String.eqb k key); [intros [= ->]; reflexivity|].
  intros H. rewrite IH by exact H. reflexivity.
Qed.

Lemma obj_get_absent V (key : string) (object : Obj V) :
  ~ In key (map fst object) -> obj_get key object = None.
Proof.
  induction object as [|[k w] rest IH]; simpl; [reflexivity|].
  intros Hn. destruct (String.eqb_spec k key); [tauto|]. apply IH. tauto.
Qed.

Lemma assign_lookup V (extension object : Obj V) (key : string) :
  NoDup (map fst extension) ->
  obj_get key
    (fold_left (fun object property =>
                  obj_set (fst property) (snd property) object)
       extension object)
  = match obj_get key extension with
    | Some v => Some v
    | None => obj_get key object
    end.
Proof.
  revert object; induction extension as [|[k v] rest IH];
    intros object Hnd; simpl; [reflexivity|].
  inversion Hnd as [|? ? Hk Hrest]; subst.
  rewrite IH by exact Hrest.
  destruct (String.eqb_spec k key) as [->|Hne].
  - rewrite (obj_get_absent _ _ Hk). apply obj_get_set_same.
  - destruct (obj_get key rest); [reflexivity|].
    apply obj_get_set_other. congruence.
Qed.

(** X12. With an extension whose own properties have distinct names,
    [mergeProperties] gives an object in which every property of the
    extension has the value of the extension and every other property has
    the value it had in the object. *)
Theorem mergeProperties_lookup V (object extension merged : Obj V)
  (key : string) :
  NoDup (map fst extension) ->
  mergeProperties object extension = Some merged ->
  obj_get key merged
  = match obj_get key extension with
    | Some v => Some v
    | None => obj_get key object
    end.
Proof.
  intros Hnd. unfold mergeProperties.
  destruct (obj_get "hasOwnProperty" extension); [discriminate|].
  destruct (obj_get "__proto__" extension); [discriminate|].
  intros [= <-]. apply assign_lookup, Hnd.
Qed.

Lemma mergeProperties_lookup_witness :
  obj_get "b" [ ("a", 1); ("b", 3); ("c", 4) ]%string = Some 3.
Proof.
  apply (@mergeProperties_lookup Z
           [ ("a", 1); ("b", 2) ]%string [ ("b", 3); ("c", 4) ]%string
           [ ("a", 1); ("b", 3); ("c", 4) ]%string "b").
  - repeat constructor; simpl; intuition discriminate.
  - reflexivity.
Defined.

(** X13. [mergeProperties] removes no property of the object, and merging
    the same extension a second time changes nothing. *)
Theorem mergeProperties_again V (object extension merged : Obj V) :
  NoDup (map fst extension) ->
  mergeProperties object extension = Some merged ->
  mergeProperties merged extension = Some merged
  /\ forall key v,
      obj_get key object = Some v ->
      exists w, obj_get key merged = Some w.
Proof.
  intros Hnd Hm. split.
  - assert (Hall : forall k v, In (k, v) extension ->
                               obj_get k merged = Some v).
    { intros k v Hin.
      rewrite (@mergeProperties_lookup V object extension merged k Hnd Hm).
      clear Hm. induction extension as [|[k' v'] rest IH]; [contradiction|].
      inversion Hnd as [|? ? Hk Hrest]; subst. simpl.
      destruct Hin as [[= -> ->]|Hin].
      - rewrite String.eqb_refl. reflexivity.
      - destruct (String.eqb_spec k' k) as [->|_]; [|apply IH; assumption].
        exfalso. apply Hk. apply (in_map fst) in Hin. exact Hin. }
    unfold mergeProperties in *.
    destruct (obj_get "hasOwnProperty" extension); [discriminate|].
    destruct (obj_get "__proto__" extension); [discriminate|].
    f_equal. clear Hm Hnd.
    induction extension as [|[k v] rest IH]; [reflexivity|]. simpl.
    rewrite obj_set_unchanged by (apply Hall; left; reflexivity).
    apply IH. intros k' v' Hin. apply Hall. right. exact Hin.
  - intros key v Hv.
    rewrite (@mergeProperties_lookup V object extension merged key Hnd Hm).
    rewrite Hv. destruct (obj_get key extension) as [w|]; eexists; reflexivity.
Qed.

Lemma mergeProperties_again_witness :
  mergeProperties [ ("a", 1); ("b", 3); ("c", 4) ]%string
    [ ("b", 3); ("c", 4) ]%string
  = Some [ ("a", 1); ("b", 3); ("c", 4) ]%string.
Proof.
  apply (@mergeProperties_again Z [ ("a", 1); ("b", 2) ]%string
           [ ("b", 3); ("c", 4) ]%string).
  - repeat constructor; simpl; intuition discriminate.
  - reflexivity.
Defined.

(** ** Cookies *)

Section CookieFacts.
Variable encodeURIComponent : string -> string.

Lemma encodeCookie_starts (name : string) (options : Cookie.Arg) :
  exists rest,
    encodeCookie encodeURIComponent name options
    = (encodeURIComponent name ++ "=" ++ rest)%string.
Proof.
  unfold encodeCookie.
  repeat match goal with
         | |- context [match ?x with _ => _ end] => destruct x
         end;
    eexists; rewrite ?append_assoc; simpl; reflexivity.
Qed.

Lemma append_not_empty (a b : string) (c : ascii) :
  (a ++ String c b)%string <> ""%string.
Proof. destruct a; discriminate. Qed.

Lemma encodeCookie_not_empty (name : string) (options : Cookie.Arg) :
  encodeCookie encodeURIComponent name options <> ""%string.
Proof.
  destruct (encodeCookie_starts name options) as [rest ->].
  apply append_not_empty.
Qed.

Lemma truthy_some (s : string) : s <> ""%string -> truthy (Some s) = Some s.
Proof. intros H. simpl. destruct (String.eqb_spec s ""); congruence. Qed.

Lemma setCookie_other (headers : Obj string) (name key : string)
  (options : Cookie.Arg) :
  key <> "Set-Cookie"%string ->
  obj_get key (setCookie encodeURIComponent headers name options)
  = obj_get key headers.
Proof.
  intros Hk. unfold setCookie.
  destruct (truthy (obj_get "Set-Cookie" headers));
    apply obj_get_set_other, Hk.
Qed.

Lemma setCookies_joined (cookies : list (string * Cookie.Arg))
  (headers : Obj string) (old : string) :
  obj_get "Set-Cookie" headers = Some old ->
  old <> ""%string ->
  obj_get "Set-Cookie" (setCookies encodeURIComponent headers cookies)
  = Some (String.concat newline
            (old :: map (fun c => encodeCookie encodeURIComponent
                                    (fst c) (snd c)) cookies)).
Proof.
  revert headers old; induction cookies as [|[name options] rest IH];
    intros headers old Hold Hne.
  - simpl. exact Hold.
  - cbn [setCookies fold_left fst snd map].
    fold (setCookies encodeURIComponent
            (setCookie encodeURIComponent headers name options) rest).
    set (cookie := encodeCookie encodeURIComponent name options).
    assert (Hset : obj_get "Set-Cookie"
                     (setCookie encodeURIComponent headers name options)
                   = Some (old ++ newline ++ cookie)%string).
    { unfold setCookie. rewrite Hold, (truthy_some Hne).
      rewrite obj_get_set_same. reflexivity. }
    rewrite (IH _ _ Hset).
    + f_equal. cbn [String.concat]. fold cookie.
      destruct (map _ rest) as [|next more].
      * reflexivity.
      * rewrite !append_assoc. reflexivity.
    + destruct old; [congruence|discriminate].
Qed.
End CookieFacts.

(** X14. [encodeCookie] always starts with the encoded name and an equals
    sign, and a string passed as options counts as the value: it gives the
    same cookie as an object with that [value] alone, the empty string
    giving a cookie without value. *)
Theorem encodeCookie_string_is_value (encodeURIComponent : string -> string)
  (name s : string) (options : Cookie.Arg) :
  encodeCookie encodeURIComponent name (Cookie.AsString s)
  = encodeCookie encodeURIComponent name
      (Cookie.AsObject
         {| Cookie.value := Some s; Cookie.domain := None;
            Cookie.path := None; Cookie.expires := None;
            Cookie.secure := false; Cookie.httpOnly := false |})
  /\ encodeCookie encodeURIComponent name (Cookie.AsString "")
     = (encodeURIComponent name ++ "=")%string
  /\ exists rest,
      encodeCookie encodeURIComponent name options
      = (encodeURIComponent name ++ "=" ++ rest)%string.
Proof.
  split; [|split; [reflexivity|apply encodeCookie_starts]].
  unfold encodeCookie. cbn [truthy Cookie.value].
  destruct (String.eqb s "") eqn:Hs; cbn; rewrite ?Hs; reflexivity.
Qed.

(** X15. Calls of [setCookie] accumulate: starting from headers without a
    Set-Cookie value, after one call per cookie the Set-Cookie header holds
    all the encoded cookies in call order, one per line, and every other
    header is as it was. *)
Theorem setCookies_accumulate (encodeURIComponent : string -> string)
  (headers : Obj string) (first : string * Cookie.Arg)
  (rest : list (string * Cookie.Arg)) :
  truthy (obj_get "Set-Cookie" headers) = None ->
  obj_get "Set-Cookie"
    (setCookies encodeURIComponent headers (first :: rest))
  = Some (String.concat newline
            (map (fun c => encodeCookie encodeURIComponent (fst c) (snd c))
               (first :: rest)))
  /\ forall key,
      key <> "Set-Cookie"%string ->
      obj_get key (setCookies encodeURIComponent headers (first :: rest))
      = obj_get key headers.
Proof.
  intros Hnone. split.
  - cbn [setCookies fold_left].
    fold (setCookies encodeURIComponent
            (setCookie encodeURIComponent headers (fst first) (snd first))
            rest).
    rewrite (@setCookies_joined encodeURIComponent rest _
               (encodeCookie encodeURIComponent (fst first) (snd first))).
    + reflexivity.
    + unfold setCookie. rewrite Hnone. apply obj_get_set_same.
    + apply encodeCookie_not_empty.
  - intros key Hk. generalize (first :: rest). intros cookies.
    revert headers Hnone. induction cookies as [|c cs IH]; intros headers _.
    + reflexivity.
    + cbn [setCookies fold_left].
      fold (setCookies encodeURIComponent
              (setCookie encodeURIComponent headers (fst c) (snd c)) cs).
      assert (Hgen : forall h,
                 obj_get key (setCookies encodeURIComponent h cs)
                 = obj_get key h).
      { clear IH. induction cs as [|d ds IHd]; intros h; [reflexivity|].
        cbn [setCookies fold_left].
        fold (setCookies encodeURIComponent
                (setCookie encodeURIComponent h (fst d) (snd d)) ds).
        rewrite IHd. apply setCookie_other, Hk. }
      rewrite Hgen. apply setCookie_other, Hk.
Qed.

Lemma setCookies_accumulate_witness :
  obj_get "Set-Cookie"
    (setCookies (fun s => s) [ ("Host", "example.org") ]%string
       [ ("sid", Cookie.AsString "1"); ("theme", Cookie.Absent) ]%string)
  = Some (String.concat newline [ "sid=1"; "theme=" ]%string).
Proof.
  apply (@setCookies_accumulate (fun s => s) [ ("Host", "example.org") ]%string
           ("sid", Cookie.AsString "1")%string
           [ ("theme", Cookie.Absent) ]%string).
  reflexivity.
Defined.

(** ** makeKey *)

Lemma hex_digit_is_hex (n : nat) : is_hex_char (hex_digit n) = true.
Proof.
  do 16 (destruct n as [|n]; [reflexivity|]). reflexivity.
Qed.

Lemma toString_hex_length (buffer : Buffer) :
  String.length (toString_hex buffer) = (2 * List.length buffer)%nat.
Proof. induction buffer as [|b rest IH]; simpl; [reflexivity|]. rewrite IH. lia. Qed.

Lemma toString_hex_app (a b : Buffer) :
  toString_hex (a ++ b) = (toString_hex a ++ toString_hex b)%string.
Proof. induction a as [|x a IH]; simpl; [reflexivity|]. rewrite IH. reflexivity. Qed.

Lemma toString_hex_is_hex (buffer : Buffer) :
  forallb is_hex_char (list_ascii_of_string (toString_hex buffer)) = true.
Proof.
  induction buffer as [|b rest IH]; [reflexivity|].
  cbn [toString_hex list_ascii_of_string forallb].
  rewrite !hex_digit_is_hex, IH. reflexivity.
Qed.

Lemma substring_0_length (n : nat) (s : string) :
  (n <= String.length s)%nat -> String.length (substring 0 n s) = n.
Proof.
  revert s; induction n as [|n IH]; intros s Hn.
  - destruct s; reflexivity.
  - destruct s as [|c s]; simpl in *; [lia|]. rewrite IH by lia. reflexivity.
Qed.

Lemma substring_0_forallb (P : ascii -> bool) (n : nat) (s : string) :
  forallb P (list_ascii_of_string s) = true ->
  forallb P (list_ascii_of_string (substring 0 n s)) = true.
Proof.
  revert s; induction n as [|n IH]; intros s Hs.
  - destruct s; reflexivity.
  - destruct s as [|c s]; [reflexivity|]. simpl in *.
    apply andb_prop in Hs as [Hc Hs]. rewrite Hc, IH by exact Hs. reflexivity.
Qed.

Lemma substring_0_append (n : nat) (a b : string) :
  (n <= String.length a)%nat -> substring 0 n (a ++ b) = substring 0 n a.
Proof.
  revert a; induction n as [|n IH]; intros a Hn.
  - destruct a; destruct b; reflexivity.
  - destruct a as [|c a]; simpl in *; [lia|]. rewrite IH by lia. reflexivity.
Qed.

(** X16. When [crypto.randomBytes] returns as many bytes as it is asked
    for, [makeKey(length)] is a string of exactly [length] characters, all
    of them lower-case hexadecimal digits. *)
Theorem makeKey_length (randomBytes : nat -> Buffer) (length : nat) :
  List.length (randomBytes length) = length ->
  String.length (makeKey randomBytes length) = length
  /\ forallb is_hex_char (list_ascii_of_string (makeKey randomBytes length))
     = true.
Proof.
  intros Hlen. unfold makeKey. split.
  - apply substring_0_length. rewrite toString_hex_length, Hlen. lia.
  - apply substring_0_forallb, toString_hex_is_hex.
Qed.

Lemma makeKey_length_witness :
  String.length (makeKey (fun n => repeat Byte.xab n) 5) = 5%nat.
Proof.
  apply (@makeKey_length (fun n => repeat Byte.xab n) 5). reflexivity.
Defined.

(** X17. Only the first half of the random bytes reaches the key: two
    draws of [length] bytes that agree on their first [(length + 1) / 2]
    bytes give the same key. *)
Theorem makeKey_uses_half (randomBytes randomBytes' : nat -> Buffer)
  (length : nat) :
  List.length (randomBytes length) = length ->
  List.length (randomBytes' length) = length ->
  firstn ((length + 1) / 2) (randomBytes length)
  = firstn ((length + 1) / 2) (randomBytes' length) ->
  makeKey randomBytes length = makeKey randomBytes' length.
Proof.
  intros Hl Hl' Hhalf. unfold makeKey.
  assert (Hcut : forall bytes,
             List.length bytes = length ->
             substring 0 length (toString_hex bytes)
             = substring 0 length
                 (toString_hex (firstn ((length + 1) / 2) bytes))).
  { intros bytes Hb.
    rewrite <- (firstn_skipn ((length + 1) / 2) bytes) at 1.
    rewrite toString_hex_app. apply substring_0_append.
    rewrite toString_hex_length, length_firstn, Hb.
    pose proof (Nat.div_mod_eq (length + 1) 2) as Hd.
    pose proof (Nat.mod_upper_bound (length + 1) 2) as Hm.
    lia. }
  rewrite (Hcut _ Hl), (Hcut _ Hl'), Hhalf. reflexivity.
Qed.

Lemma makeKey_uses_half_witness :
  makeKey (fun n => repeat Byte.xab n) 3
  = makeKey (fun n => [Byte.xab; Byte.xab; Byte.x00]) 3.
Proof.
  apply (@makeKey_uses_half (fun n => repeat Byte.xab n)
           (fun n => [Byte.xab; Byte.xab; Byte.x00]) 3); reflexivity.
Defined.

(** ** makeTemporaryPath *)

(** X18. The date stamp of [makeTemporaryPath] does not tell the day:
    [getMonth] counts from 0 and nothing separates or pads the numbers, so
    on any host the eleventh to nineteenth day of February and the first to
    ninth day of December give the same path for the same prefix, process
    and random draw. *)
Theorem makeTemporaryPath_date_ambiguous (dir random : string)
  (process year day : nat) (join : string -> string -> string)
  (prefix : option string) :
  (1 <= day <= 9)%nat ->
  makeTemporaryPath
    (platform := {| tmpDir := dir; pid := process; getYear := year;
                    getMonth := 1; getDate := 10 + day;
                    random36 := random; path_join := join |}) prefix
  = makeTemporaryPath
      (platform := {| tmpDir := dir; pid := process; getYear := year;
                      getMonth := 11; getDate := day;
                      random36 := random; path_join := join |}) prefix.
Proof.
  intros Hday. unfold makeTemporaryPath. cbn [tmpDir pid getYear getMonth
    getDate random36 path_join].
  assert (Hd : (toDecimal 1 ++ toDecimal (10 + day))%string
               = (toDecimal 11 ++ toDecimal day)%string).
  { do 10 (destruct day as [|day]; [try lia; reflexivity|]). lia. }
  rewrite Hd. reflexivity.
Qed.

Lemma makeTemporaryPath_date_ambiguous_witness :
  makeTemporaryPath
    (platform := {| tmpDir := "/tmp"; pid := 4242; getYear := 113;
                    getMonth := 1; getDate := 10 + 7;
                    random36 := "1z141z4.8hd";
                    path_join := fun d n => (d ++ "/" ++ n)%string |}) None
  = makeTemporaryPath
      (platform := {| tmpDir := "/tmp"; pid := 4242; getYear := 113;
                      getMonth := 11; getDate := 7;
                      random36 := "1z141z4.8hd";
                      path_join := fun d n => (d ++ "/" ++ n)%string |}) None.
Proof.
  apply (@makeTemporaryPath_date_ambiguous "/tmp" "1z141z4.8hd" 4242 113 7
           (fun d n => (d ++ "/" ++ n)%string) None).
  lia.
Defined.

(** ** makeTemporaryPath on a POSIX host *)

Lemma split_slash_not_nil (s : string) : split_slash s <> [].
Proof.
  induction s as [|c s IH]; simpl; [discriminate|].
  destruct (Ascii.eqb c "/"); [discriminate|].
  destruct (split_slash s); discriminate.
Qed.

Lemma split_slash_append (a b : string) :
  split_slash (a ++ String "/" b) = split_slash a ++ split_slash b.
Proof.
  induction a as [|c a IH]; [reflexivity|].
  cbn [String.append split_slash]. rewrite IH.
  destruct (Ascii.eqb c "/"); [reflexivity|].
  destruct (split_slash a) as [|segment segments] eqn:Ha; [|reflexivity].
  exfalso. apply (split_slash_not_nil a Ha).
Qed.

Lemma split_slash_plain (s : string) :
  no_slash s = true -> split_slash s = [s].
Proof.
  induction s as [|c s IH]; [reflexivity|]. simpl.
  intros H. apply andb_prop in H as [Hc Hs].
  apply negb_true_iff in Hc. rewrite Hc, (IH Hs). reflexivity.
Qed.

Lemma no_slash_append (a b : string) :
  no_slash (a ++ b) = no_slash a && no_slash b.
Proof.
  induction a as [|c a IH]; [reflexivity|]. simpl.
  rewrite IH, andb_assoc. reflexivity.
Qed.

Lemma string_of_uint_no_slash (d : Decimal.uint) :
  no_slash (NilEmpty.string_of_uint d) = true.
Proof. induction d; simpl; auto. Qed.

Lemma toDecimal_no_slash (n : nat) : no_slash (toDecimal n) = true.
Proof.
  unfold toDecimal, NilZero.string_of_uint.
  destruct (Nat.to_uint n) eqn:Hd; try reflexivity;
    rewrite <- Hd; apply string_of_uint_no_slash.
Qed.

Lemma base36_no_slash (s : string) :
  forallb is_base36_char (list_ascii_of_string s) = true ->
  no_slash s = true.
Proof.
  induction s as [|c s IH]; [reflexivity|]. simpl.
  intros H. apply andb_prop in H as [Hc Hs]. rewrite (IH Hs), andb_true_r.
  destruct (Ascii.eqb_spec c "/") as [->|_]; [discriminate Hc|reflexivity].
Qed.

(** A name with a hyphen in it is neither empty nor a dot segment. *)
Lemma hyphened_name (a b : string) :
  non_empty (a ++ String "-" b) = true
  /\ is_dots (a ++ String "-" b) = false.
Proof.
  unfold non_empty, is_dots.
  destruct a as [|x [|y [|z a]]]; simpl;
    repeat match goal with
           | |- context [Ascii.eqb ?u ?v] => destruct (Ascii.eqb u v)
           end; auto.
Qed.

Lemma ends_with_slash_append (a b : string) (c : ascii) :
  ends_with_slash (a ++ String c b) = ends_with_slash (String c b).
Proof.
  induction a as [|x a IH]; [reflexivity|].
  cbn [String.append]. rewrite <- IH.
  destruct (a ++ String c b)%string eqn:Hab; [|reflexivity].
  destruct a; discriminate.
Qed.

Lemma no_slash_ends (s : string) :
  no_slash s = true -> ends_with_slash s = false.
Proof.
  induction s as [|c s IH]; [reflexivity|]. simpl.
  intros H. apply andb_prop in H as [Hc Hs]. apply negb_true_iff in Hc.
  destruct s; [exact Hc|apply IH, Hs].
Qed.

(** Parts without dot segments are what [normalizeArray] keeps. *)
Lemma normalizeArray_plain (parts : list string) (allowAboveRoot : bool) :
  forallb (fun s => negb (is_dots s)) parts = true ->
  normalizeArray parts allowAboveRoot = parts.
Proof.
  intros H. unfold normalizeArray.
  assert (Hf : fold_right normalize_step ([], O) parts = (parts, O)).
  { induction parts as [|p parts IH]; [reflexivity|].
    simpl in H. apply andb_prop in H as [Hp H].
    simpl. rewrite (IH H). unfold normalize_step.
    unfold is_dots in Hp. apply negb_true_iff, orb_false_iff in Hp.
    destruct Hp as [-> ->]. reflexivity. }
  rewrite Hf. destruct allowAboveRoot; reflexivity.
Qed.

(** The segments joined by slashes, with one more at the end. *)
Lemma concat_slash_last (segments : list string) (name : string) :
  exists before,
    ("/" ++ String.concat "/" (segments ++ [name]))%string
    = (before ++ String "/" name)%string.
Proof.
  induction segments as [|s segments [before IH]].
  - exists ""%string. reflexivity.
  - exists ("/" ++ s ++ before)%string.
    cbn [app String.concat].
    destruct (segments ++ [name]) as [|x xs] eqn:Hx;
      [destruct segments; discriminate|].
    simpl in IH. simpl. rewrite IH, append_assoc. reflexivity.
Qed.

Lemma concat_slash_not_empty (segments : list string) (name : string) :
  non_empty name = true ->
  non_empty (String.concat "/" (segments ++ [name])) = true.
Proof.
  intros Hn. destruct segments as [|s segments]; [exact Hn|].
  cbn [app String.concat].
  destruct (segments ++ [name]) as [|x xs] eqn:Hx;
    [destruct segments; discriminate|].
  unfold non_empty. destruct s; reflexivity.
Qed.

(** [path.join] of an absolute directory without dot segments and a plain
    name is the directory, normalised, followed by the name. *)
Lemma posix_join_plain (dir name : string) :
  starts_with_slash dir = true ->
  forallb (fun s => negb (is_dots s)) (filter non_empty (split_slash dir))
  = true ->
  no_slash name = true ->
  non_empty name = true ->
  is_dots name = false ->
  posix_join dir name
  = ("/" ++ String.concat "/"
              (filter non_empty (split_slash dir) ++ [name]))%string.
Proof.
  intros Habs Hdir Hslash Hne Hdots.
  assert (Hd : non_empty dir = true) by (destruct dir; [discriminate|reflexivity]).
  unfold posix_join. cbn [filter]. rewrite Hd, Hne.
  change (String.concat "/" [dir; name]) with (dir ++ String "/" name)%string.
  unfold posix_normalize.
  assert (Hs : starts_with_slash (dir ++ String "/" name) = true)
    by (destruct dir; [discriminate|exact Habs]).
  assert (He : ends_with_slash (dir ++ String "/" name) = false).
  { rewrite ends_with_slash_append.
    destruct name as [|c name]; [discriminate|].
    apply (no_slash_ends (String c name)), Hslash. }
  rewrite Hs, He, split_slash_append, (split_slash_plain name Hslash).
  rewrite filter_app. cbn [filter]. rewrite Hne.
  rewrite normalizeArray_plain.
  - cbn [negb andb]. rewrite !andb_false_r. reflexivity.
  - rewrite forallb_app, Hdir. simpl. rewrite Hdots. reflexivity.
Qed.

(** C8, as the code has it.  On a POSIX host whose temporary directory is
    an absolute path without dot segments, and for a prefix without slash,
    [makeTemporaryPath] returns the temporary directory, normalised,
    followed by a slash and one name, the last component of the path: the
    prefix (empty when absent), the numbers of [getYear], [getMonth] and
    [getDate] in decimal, a hyphen, the process identifier in decimal, a
    hyphen, and the random number as the platform renders it in base 36. *)
Theorem makeTemporaryPath_in_tmpDir {platform : Platform}
  (prefix : option string) :
  path_join = posix_join ->
  starts_with_slash tmpDir = true ->
  forallb (fun s => negb (is_dots s)) (filter non_empty (split_slash tmpDir))
  = true ->
  forallb is_base36_char (list_ascii_of_string random36) = true ->
  no_slash (or_default prefix "") = true ->
  let name :=
    (or_default prefix ""
     ++ (toDecimal getYear ++ toDecimal getMonth ++ toDecimal getDate)
     ++ "-" ++ toDecimal pid ++ "-" ++ random36)%string in
  makeTemporaryPath prefix
  = ("/" ++ String.concat "/"
              (filter non_empty (split_slash tmpDir) ++ [name]))%string
  /\ basename (makeTemporaryPath prefix) = name.
Proof.
  intros Hjoin Habs Hdir Hrandom Hprefix name.
  assert (Hshape : name
                   = ((or_default prefix ""
                       ++ toDecimal getYear ++ toDecimal getMonth
                       ++ toDecimal getDate)
                      ++ String "-" (toDecimal pid ++ String "-" random36))%string).
  { subst name. rewrite !append_assoc. reflexivity. }
  destruct (hyphened_name
              (or_default prefix "" ++ toDecimal getYear ++ toDecimal getMonth
               ++ toDecimal getDate)
              (toDecimal pid ++ String "-" random36)) as [Hne Hdots].
  rewrite <- Hshape in Hne, Hdots.
  assert (Hslash : no_slash name = true).
  { rewrite Hshape, !no_slash_append, Hprefix, !toDecimal_no_slash.
    cbn [no_slash andb]. rewrite no_slash_append, toDecimal_no_slash.
    cbn [no_slash andb]. rewrite (base36_no_slash _ Hrandom). reflexivity. }
  assert (Hpath : makeTemporaryPath prefix = posix_join tmpDir name).
  { unfold makeTemporaryPath. rewrite Hjoin. reflexivity. }
  rewrite Hpath, (posix_join_plain tmpDir name Habs Hdir Hslash Hne Hdots).
  split; [reflexivity|].
  unfold basename.
  destruct (concat_slash_last (filter non_empty (split_slash tmpDir)) name)
    as [before ->].
  rewrite split_slash_append, (split_slash_plain name Hslash).
  apply last_last.
Qed.

Lemma makeTemporaryPath_in_tmpDir_witness :
  makeTemporaryPath (platform := posix_host) (Some "upload-"%string)
  = "/tmp/upload-113417-4242-1z141z4.8hd"%string
  /\ basename (makeTemporaryPath (platform := posix_host)
                 (Some "upload-"%string))
     = "upload-113417-4242-1z141z4.8hd"%string.
Proof.
  apply (@makeTemporaryPath_in_tmpDir posix_host (Some "upload-"%string));
    reflexivity.
Defined.

(** C8 as stated fails for a prefix with a slash: with the prefix [a/b] the
    last component of the path is not the concatenation that starts with
    the prefix, and with the prefix [../x] the path is outside the
    temporary directory. *)
Lemma makeTemporaryPath_prefix_with_slash :
  (makeTemporaryPath (platform := posix_host) (Some "a/b"%string)
   = "/tmp/a/b113417-4242-1z141z4.8hd"%string
   /\ basename (makeTemporaryPath (platform := posix_host) (Some "a/b"%string))
      <> "a/b113417-4242-1z141z4.8hd"%string)
  /\ (makeTemporaryPath (platform := posix_host) (Some "../x"%string)
      = "/x113417-4242-1z141z4.8hd"%string
      /\ String.prefix "/tmp/"
           (makeTemporaryPath (platform := posix_host) (Some "../x"%string))
         = false).
Proof.
  split; split; try reflexivity. vm_compute. discriminate.
Qed.

(** ** The stream operations on a source that fails or ends *)

Section StreamOutcomes.
Context {crypto : Crypto} {platform : Platform}.

Lemma checksum_scan (algorithm : string) (chunks seen : list Buffer)
  (terminal : StreamEvent) :
  Checksum.first_event_wins algorithm seen (emits chunks terminal)
  = match terminal with
    | EvData _ => Pending
    | EvEnd => Resolved (Checksum.digest_of algorithm (seen ++ chunks))
    | EvError e => Rejected e
    end.
Proof.
  unfold emits. revert seen; induction chunks as [|c cs IH]; intros seen.
  - simpl. rewrite app_nil_r. destruct terminal; reflexivity.
  - simpl. rewrite IH, <- app_assoc. reflexivity.
Qed.

(** Storage events keep a stream that was not ended open, and its data on
    the way to the file. *)
Lemma storage_keeps_open (trace : list StreamToDisk.Event)
  (st : StreamToDisk.State) :
  StreamToDisk.part_events trace = [] ->
  StreamToDisk.storage_ok trace = true ->
  StreamToDisk.uncaught st = None ->
  StreamToDisk.ending (StreamToDisk.stream st) = false ->
  StreamToDisk.finished (StreamToDisk.stream st) = false ->
  let st' := deliver StreamToDisk.handle st trace in
  StreamToDisk.uncaught st' = None
  /\ StreamToDisk.ending (StreamToDisk.stream st') = false
  /\ StreamToDisk.finished (StreamToDisk.stream st') = false
  /\ StreamToDisk.value st' = StreamToDisk.value st
  /\ StreamToDisk.info st' = StreamToDisk.info st
  /\ StreamToDisk.written (StreamToDisk.stream st')
     ++ Buffer_concat (StreamToDisk.queue (StreamToDisk.stream st'))
     = StreamToDisk.written (StreamToDisk.stream st)
       ++ Buffer_concat (StreamToDisk.queue (StreamToDisk.stream st)).
Proof.
  revert st; induction trace as [|ev rest IH]; intros st Hp Hok Hu He Hf;
    cbv zeta.
  - simpl. auto 10.
  - rewrite deliver_cons.
    destruct ev as [e| |error|]; simpl in Hp, Hok; try discriminate.
    + assert (Hstep : exists s,
                 StreamToDisk.handle st StreamToDisk.AckWrite = s
                 /\ StreamToDisk.uncaught s = None
                 /\ StreamToDisk.ending (StreamToDisk.stream s) = false
                 /\ StreamToDisk.finished (StreamToDisk.stream s) = false
                 /\ StreamToDisk.value s = StreamToDisk.value st
                 /\ StreamToDisk.info s = StreamToDisk.info st
                 /\ StreamToDisk.written (StreamToDisk.stream s)
                    ++ Buffer_concat
                         (StreamToDisk.queue (StreamToDisk.stream s))
                    = StreamToDisk.written (StreamToDisk.stream st)
                      ++ Buffer_concat
                           (StreamToDisk.queue (StreamToDisk.stream st))).
      { eexists. split; [reflexivity|].
        unfold StreamToDisk.handle. rewrite Hu.
        unfold StreamToDisk.on_write_done.
        destruct (StreamToDisk.queue (StreamToDisk.stream st)) as [|c q]
          eqn:Hq; cbn.
        - rewrite ?Hq. auto 10.
        - repeat split; auto.
          unfold Buffer_concat. simpl. rewrite <- app_assoc. reflexivity. }
      destruct Hstep as (s & -> & Hu' & He' & Hf' & Hv' & Hi' & Hw').
      pose proof (IH s Hp Hok Hu' He' Hf') as H. cbv zeta in H.
      destruct H as (H1 & H2 & H3 & H4 & H5 & H6).
      rewrite H4, H5, H6, Hv', Hi', Hw'. auto 10.
    + assert (Hstep : StreamToDisk.handle st StreamToDisk.Finish = st).
      { unfold StreamToDisk.handle. rewrite Hu.
        unfold StreamToDisk.on_finish. rewrite He. reflexivity. }
      rewrite Hstep. apply (IH st Hp Hok Hu He Hf).
Qed.
End StreamOutcomes.

(** X19. With a supported algorithm (md5 when none or the empty name is
    given), [makeChecksum] opens the file, and its promise is resolved with
    the hex digest of all chunks in the order read when the file ends, and
    rejected with the error of the stream when reading fails, whatever was
    read before. *)
Theorem makeChecksum_digest {crypto : Crypto} (file : string)
  (algorithm : option string) (chunks : list Buffer) (error : JsError) :
  supported (or_default algorithm "md5") = true ->
  (exists st,
      Checksum.run file algorithm (emits chunks EvEnd)
      = (Ok st, [OpenRead file])
      /\ Checksum.value st
         = Resolved (Checksum.digest_of (or_default algorithm "md5") chunks))
  /\ (exists st,
         Checksum.run file algorithm (emits chunks (EvError error))
         = (Ok st, [OpenRead file])
         /\ Checksum.value st = Rejected error).
Proof.
  intros Hs.
  split; eexists; (split;
    [unfold Checksum.run, listen;
     rewrite (makeChecksum_starts file algorithm Hs); reflexivity|]).
  - rewrite checksum_first_event_wins
      with (algorithm := or_default algorithm "md5") (seen := []);
      try reflexivity.
    rewrite checksum_scan. reflexivity.
  - rewrite checksum_first_event_wins
      with (algorithm := or_default algorithm "md5") (seen := []);
      try reflexivity.
    rewrite checksum_scan. reflexivity.
Qed.

Lemma makeChecksum_digest_witness :
  exists st,
    Checksum.run (crypto := sample_crypto) "upload.bin" None
      (emits [ten_a; ten_b] EvEnd)
    = (Ok st, [OpenRead "upload.bin"])
    /\ Checksum.value st
       = Resolved (Checksum.digest_of (crypto := sample_crypto) "md5"
                     [ten_a; ten_b]).
Proof.
  apply (@makeChecksum_digest sample_crypto "upload.bin" None
           [ten_a; ten_b] (IoError "EIO")).
  reflexivity.
Defined.

(** X20. [bufferStream] passes on the error of its stream: when the chunks
    before the error stay within the maximum length, or no maximum is set,
    the promise is rejected with that error and no buffer is produced. *)
Theorem bufferStream_source_error (chunks : list Buffer) (error : JsError)
  (m : Z) :
  BufferStream.bufferStream (emits chunks (EvError error)) None
  = Rejected error
  /\ BufferStream.bufferStream (emits chunks (EvError error)) (Some 0)
     = Rejected error
  /\ (totalLength chunks <= m ->
      BufferStream.bufferStream (emits chunks (EvError error)) (Some m)
      = Rejected error).
Proof.
  assert (Hall : forall maxLength,
             (forall l, l <= 0 + totalLength chunks ->
                        BufferStream.exceeded maxLength l = None) ->
             BufferStream.bufferStream (emits chunks (EvError error)) maxLength
             = Rejected error).
  { intros maxLength Hw. unfold emits.
    rewrite bufferStream_first_event_wins, first_event_wins_within by exact Hw.
    reflexivity. }
  split; [|split].
  - apply Hall. intros l _. apply exceeded_unbounded. auto.
  - apply Hall. intros l _. apply exceeded_unbounded. auto.
  - intros Hle. apply Hall. intros l Hl. apply exceeded_within. lia.
Qed.

Lemma bufferStream_source_error_witness :
  BufferStream.bufferStream (emits [ten_a] (EvError (IoError "ECONNRESET")))
    (Some 15)
  = Rejected (IoError "ECONNRESET").
Proof.
  apply (bufferStream_source_error [ten_a] (IoError "ECONNRESET") 15).
  vm_compute. discriminate.
Defined.

(** X21. A negative maximum length rejects [bufferStream] at the first
    ['data'] event, even for an empty chunk, with the error carrying that
    maximum; a stream that ends without any chunk still resolves with the
    empty buffer. *)
Theorem bufferStream_negative_limit (m : Z) (chunk : Buffer)
  (later : list StreamEvent) :
  m < 0 ->
  BufferStream.bufferStream (EvData chunk :: later) (Some m)
  = Rejected (MaxLengthExceededError m)
  /\ BufferStream.bufferStream (emits [] EvEnd) (Some m) = Resolved [].
Proof.
  intros Hm. split; [|reflexivity].
  rewrite bufferStream_first_event_wins.
  cbn [BufferStream.first_event_wins].
  rewrite exceeded_some; [reflexivity|lia|unfold byteLength; lia].
Qed.

Lemma bufferStream_negative_limit_witness :
  BufferStream.bufferStream [EvData []; EvEnd] (Some (-1))
  = Rejected (MaxLengthExceededError (-1)).
Proof.
  apply (@bufferStream_negative_limit (-1) [] [EvEnd]). lia.
Defined.

(** X22. When the part fails, [streamToDisk] rejects with the error of the
    part and does nothing about the file: the stream is never ended nor
    finished, [size] counts the chunks emitted before the error, and these
    chunks stay in the file or on their way to it while the storage layer
    goes on acknowledging writes. *)
Theorem streamToDisk_error_leaves_file {platform : Platform}
  (part : StreamToDisk.Part) (filePrefix : option string)
  (trace later : list StreamToDisk.Event) (cs : list Buffer)
  (error : JsError) :
  StreamToDisk.part_events trace = emits cs (EvError error) ->
  StreamToDisk.storage_ok trace = true ->
  StreamToDisk.part_events later = [] ->
  StreamToDisk.storage_ok later = true ->
  exists st,
    StreamToDisk.run part filePrefix (trace ++ later) = Ok st
    /\ StreamToDisk.value st = Rejected error
    /\ StreamToDisk.ending (StreamToDisk.stream st) = false
    /\ StreamToDisk.finished (StreamToDisk.stream st) = false
    /\ StreamToDisk.size (StreamToDisk.info st) = totalLength cs
    /\ StreamToDisk.written (StreamToDisk.stream st)
       ++ Buffer_concat (StreamToDisk.queue (StreamToDisk.stream st))
       = Buffer_concat cs.
Proof.
  intros Hp Hok Hpl Hokl.
  destruct (run_reaches part filePrefix (trace ++ later))
    as (st0 & st & Hrun & -> & _ & Hc & _).
  exists (deliver StreamToDisk.handle st0 (trace ++ later)).
  split; [exact Hrun|].
  destruct (@part_events_split trace (map EvData cs) (EvError error) Hp)
    as (b & a & -> & Hb & Ha).
  rewrite storage_ok_app in Hok. apply andb_prop in Hok as [Hokb Hoka].
  simpl in Hoka.
  pose proof (@collecting_deliver b st0 [] cs 0 Hc Hb Hokb) as Hc1.
  simpl in Hc1.
  destruct Hc1 as (Hu & He & Hf & Hv & Hsz & done & Hseen & Hw & _).
  rewrite <- app_assoc, deliver_app. simpl app. rewrite deliver_cons.
  set (st1 := deliver StreamToDisk.handle st0 b) in *.
  assert (Hstep : StreamToDisk.handle st1 (StreamToDisk.FromPart (EvError error))
                  = StreamToDisk.on_error st1 error)
    by (unfold StreamToDisk.handle; rewrite Hu; reflexivity).
  rewrite Hstep.
  assert (Hpa : StreamToDisk.part_events (a ++ later) = []).
  { unfold StreamToDisk.part_events in *. rewrite flat_map_app, Ha, Hpl.
    reflexivity. }
  assert (Hoa : StreamToDisk.storage_ok (a ++ later) = true)
    by (rewrite storage_ok_app, Hoka, Hokl; reflexivity).
  pose proof (@storage_keeps_open (a ++ later)
                (StreamToDisk.on_error st1 error) Hpa Hoa Hu He Hf) as H.
  cbv zeta in H. destruct H as (_ & H2 & H3 & H4 & H5 & H6).
  rewrite H2, H3, H4, H5, H6. cbn. rewrite Hv, Hsz, Hw, Hseen.
  repeat split. unfold Buffer_concat. rewrite concat_app. reflexivity.
Qed.

Lemma streamToDisk_error_leaves_file_witness :
  exists st,
    StreamToDisk.run (platform := sample_platform) sample_part None
      ([StreamToDisk.FromPart (EvData ten_a);
        StreamToDisk.FromPart (EvError (IoError "ECONNRESET"))]
       ++ [StreamToDisk.AckWrite; StreamToDisk.Finish])
    = Ok st
    /\ StreamToDisk.value st = Rejected (IoError "ECONNRESET")
    /\ StreamToDisk.finished (StreamToDisk.stream st) = false.
Proof.
  destruct (@streamToDisk_error_leaves_file sample_platform sample_part None
              [StreamToDisk.FromPart (EvData ten_a);
               StreamToDisk.FromPart (EvError (IoError "ECONNRESET"))]
              [StreamToDisk.AckWrite; StreamToDisk.Finish]
              [ten_a] (IoError "ECONNRESET")
              eq_refl eq_refl eq_refl eq_refl)
    as (st & Hrun & Hv & _ & Hf & _).
  exists st. auto.
Defined.
